(** * Setting Sun: the puzzle engine of doxman/setting-sun

    A shallow embedding of [app/src/piece.ts] (the piece model) and of the
    engine part of [app/src/App.tsx] (board, move validator, win evaluator,
    move driver and the controls that guard it), followed by the properties
    of the engine.

    Conventions of the embedding:
    - grid coordinates are integers, modelled as [Z]; the main definitions
      read [+] and [-] on them exactly, which is what the source computes
      on safe integers (magnitude below 2^53), and the module [Double]
      gives the piece functions with the rounding of its binary64 numbers;
    - a [Set<string>] is a [gset string], the board [Map<number, Piece>] is
      a [gmap Z Piece];
    - a thrown [Error] is [None] in the [option] monad;
    - an object of one of the four piece classes is determined by the
      arguments of its constructor (all fields are [readonly] and set by
      the constructor), so a piece value is a constructor call; the private
      [squares] field is recomputed from the constructor argument. *)

From Stdlib Require Import Ascii.
From stdpp Require Import gmap strings pretty list fin_maps.

Open Scope Z_scope.

(** ** piece.ts *)

Definition GRID_WIDTH : Z := 4.
Definition GRID_HEIGHT : Z := 5.

Record PieceDimensions := Dim { height : Z; width : Z }.
Record PiecePosition := Pos { pos_x : Z; pos_y : Z }.

Inductive MoveDirection := Up | Down | Left | Right.

Global Instance PiecePosition_eq_dec : EqDecision PiecePosition.
Proof. solve_decision. Defined.
Global Instance MoveDirection_eq_dec : EqDecision MoveDirection.
Proof. solve_decision. Defined.

(** Helper that transforms a position by 1 point in a direction. *)
Definition movePosition (position : PiecePosition) (direction : MoveDirection)
  : PiecePosition :=
  match direction with
  | Up => Pos (pos_x position) (pos_y position - 1)
  | Down => Pos (pos_x position) (pos_y position + 1)
  | Left => Pos (pos_x position - 1) (pos_y position)
  | Right => Pos (pos_x position + 1) (pos_y position)
  end.

(** [JSON.stringify] of an object literal with the two integer fields x
    and y, in that order: an opening brace, the quoted key x, a colon, the
    decimal numeral, a comma, the quoted key y, a colon, the decimal
    numeral, a closing brace. *)
Definition dquote : string := String (ascii_of_nat 34) EmptyString.

Definition JSON_stringify (position : PiecePosition) : string :=
  "{" +:+ dquote +:+ "x" +:+ dquote +:+ ":" +:+ pretty (pos_x position) +:+
  "," +:+ dquote +:+ "y" +:+ dquote +:+ ":" +:+ pretty (pos_y position) +:+ "}".

(** The classes.  [Square] stores its top-left corner; the three composite
    classes store the squares they are made of, which the constructor
    derives from its [topLeft] argument. *)
Record Square := new_Square { Square_topLeft : PiecePosition; Square_id : Z }.

Inductive Piece :=
| ASquare (this : Square)
| VerticalRect (topLeft : PiecePosition) (id : Z)
| HorizontalRect (topLeft : PiecePosition) (id : Z)
| SunSquare (topLeft : PiecePosition) (id : Z).

Global Instance Square_eq_dec : EqDecision Square.
Proof. solve_decision. Defined.
Global Instance Piece_eq_dec : EqDecision Piece.
Proof. solve_decision. Defined.

(** The [squares] field set by the constructor of each composite class
    (a [Square] has no such field). *)
Definition squares (this : Piece) : list Square :=
  match this with
  | ASquare _ => []
  | VerticalRect topLeft _ =>
      [ new_Square topLeft (-1);
        new_Square (Pos (pos_x topLeft) (pos_y topLeft + 1)) (-1) ]
  | HorizontalRect topLeft _ =>
      [ new_Square topLeft (-1);
        new_Square (Pos (pos_x topLeft + 1) (pos_y topLeft)) (-1) ]
  | SunSquare topLeft _ =>
      [ new_Square topLeft (-1);
        new_Square (Pos (pos_x topLeft + 1) (pos_y topLeft)) (-1);
        new_Square (Pos (pos_x topLeft) (pos_y topLeft + 1)) (-1);
        new_Square (Pos (pos_x topLeft + 1) (pos_y topLeft + 1)) (-1) ]
  end.

(** [BasePiece.getID] *)
Definition getID (this : Piece) : Z :=
  match this with
  | ASquare s => Square_id s
  | VerticalRect _ id | HorizontalRect _ id | SunSquare _ id => id
  end.

Definition getDimensions (this : Piece) : PieceDimensions :=
  match this with
  | ASquare _ => {| width := 1; height := 1 |}
  | VerticalRect _ _ => {| width := 1; height := 2 |}
  | HorizontalRect _ _ => {| width := 2; height := 1 |}
  | SunSquare _ _ => {| width := 2; height := 2 |}
  end.

(** [Square.getTopLeft] returns the stored corner; the composite classes
    return [this.squares[0].getTopLeft()]. *)
Definition getTopLeft (this : Piece) : PiecePosition :=
  match this with
  | ASquare s => Square_topLeft s
  | _ =>
      match squares this with
      | square0 :: _ => Square_topLeft square0
      | [] => Pos 0 0
      end
  end.

Definition Square_canMove (this : Square) (direction : MoveDirection) : bool :=
  match direction with
  | Up => bool_decide (pos_y (Square_topLeft this) > 0)
  | Down => bool_decide (pos_y (Square_topLeft this) < GRID_HEIGHT - 1)
  | Left => bool_decide (pos_x (Square_topLeft this) > 0)
  | Right => bool_decide (pos_x (Square_topLeft this) < GRID_WIDTH - 1)
  end.

(** [canMove]: the square's own test, or [every] over the squares of a
    composite piece. *)
Definition canMove (this : Piece) (direction : MoveDirection) : bool :=
  match this with
  | ASquare s => Square_canMove s direction
  | _ => forallb (λ square, Square_canMove square direction) (squares this)
  end.

(** [move]: a new object of the same class at the moved position, with
    the same id. *)
Definition move (this : Piece) (direction : MoveDirection) : Piece :=
  match this with
  | ASquare s =>
      ASquare (new_Square (movePosition (Square_topLeft s) direction) (Square_id s))
  | VerticalRect _ id =>
      VerticalRect (movePosition (getTopLeft this) direction) id
  | HorizontalRect _ id =>
      HorizontalRect (movePosition (getTopLeft this) direction) id
  | SunSquare _ id =>
      SunSquare (movePosition (getTopLeft this) direction) id
  end.

(** Helper that gets all positions covered by a piece, stringified: the
    two nested counting loops, each [add] extending the set. *)
Definition getCoveredArea (piece : Piece) : gset string :=
  let topLeft := getTopLeft piece in
  let dims := getDimensions piece in
  foldl (λ area i,
    foldl (λ area j,
      {[ JSON_stringify (Pos (pos_x topLeft + i) (pos_y topLeft + j)) ]} ∪ area)
      area (seqZ 0 (height dims)))
    ∅ (seqZ 0 (width dims)).

(** Helper that checks whether two areas overlap: [area1] spread into an
    array, filtered to the points [area2] has, collected in a new set whose
    size is compared with 0. *)
Definition areasOverlap (area1 area2 : gset string) : bool :=
  bool_decide
    (0 < size (list_to_set (filter (λ point, point ∈ area2) (elements area1))
                 : gset string))%nat.

(** [intersects] has the same body in the four classes. *)
Definition intersects (this other : Piece) : bool :=
  areasOverlap (getCoveredArea this) (getCoveredArea other).

(** ** App.tsx *)

Definition SUN_ID : Z := 1.

Definition initialPieces : list Piece :=
  [ VerticalRect (Pos 0 0) 0;
    SunSquare (Pos 1 0) SUN_ID;
    VerticalRect (Pos 3 0) 2;
    HorizontalRect (Pos 1 2) 3;
    VerticalRect (Pos 0 3) 4;
    ASquare (new_Square (Pos 1 3) 5);
    ASquare (new_Square (Pos 2 3) 6);
    VerticalRect (Pos 3 3) 7;
    ASquare (new_Square (Pos 1 4) 8);
    ASquare (new_Square (Pos 2 4) 9) ].

(** [initializePieces]: every initial piece is [set] under its own id. *)
Definition initializePieces : gmap Z Piece :=
  foldl (λ initialMap piece, <[getID piece := piece]> initialMap) ∅ initialPieces.

(** [findPiece] throws when the id is absent: [None]. *)
Definition findPiece (pieces : gmap Z Piece) (pieceID : Z) : option Piece :=
  pieces !! pieceID.

Definition checkWinCondition (pieceID : Z) (piece : Piece)
    (direction : MoveDirection) : bool :=
  if bool_decide (direction = Down) && bool_decide (pieceID = SUN_ID) then
    let topLeft := getTopLeft piece in
    bool_decide (pos_x topLeft = 1) && bool_decide (pos_y topLeft = GRID_HEIGHT - 2)
  else false.

(** The loop of [canMoveWithOthers] over the entries of the board, with
    its early [return false]. *)
Fixpoint overlapsNoOther (movedPieceID : Z) (movedPiece : Piece)
    (entries : list (Z * Piece)) : bool :=
  match entries with
  | [] => true
  | (otherPieceID, otherPiece) :: rest =>
      if bool_decide (otherPieceID ≠ movedPieceID) && intersects otherPiece movedPiece
      then false
      else overlapsNoOther movedPieceID movedPiece rest
  end.

Definition canMoveWithOthers (pieces : gmap Z Piece) (pieceID : Z)
    (direction : MoveDirection) : option bool :=
  piece ← findPiece pieces pieceID;
  if checkWinCondition pieceID piece direction then Some true
  else
    let canMoveAlone := canMove piece direction in
    if negb canMoveAlone then Some false
    else
      let movedPiece := move piece direction in
      let movedPieceID := getID movedPiece in
      Some (overlapsNoOther movedPieceID movedPiece (map_to_list pieces)).

(** The updater that [onMove] hands to [setPieces]: a fresh map receives
    every entry of the old one, the entry under the moved piece's id being
    replaced by the moved piece. *)
Definition updatePieces (movedPieceID : Z) (movedPiece : Piece)
    (oldPieces : gmap Z Piece) : gmap Z Piece :=
  map_fold (λ otherPieceID otherPiece updatedPieces,
    if bool_decide (otherPieceID = movedPieceID)
    then <[movedPieceID := movedPiece]> updatedPieces
    else <[otherPieceID := otherPiece]> updatedPieces)
    ∅ oldPieces.

(** What one call of [onMove] does: whether the win alert was raised, and
    the board that becomes the state. *)
Record MoveResult := { alerted : bool; newPieces : gmap Z Piece }.

(** [onMove].  Events are handled one at a time, so the state the updater
    receives is the board of the render that created the handler. *)
Definition onMove (pieces : gmap Z Piece) (pieceID : Z)
    (direction : MoveDirection) : option MoveResult :=
  piece ← findPiece pieces pieceID;
  let alert := checkWinCondition pieceID piece direction in
  let movedPiece := move piece direction in
  let movedPieceID := getID movedPiece in
  Some {| alerted := alert;
          newPieces := updatePieces movedPieceID movedPiece pieces |}.

(** [PieceControls]: for each direction, in the order up, down, left,
    right, an arrow is rendered exactly when the [canMove] prop answers
    true, and its click handler calls the [onMove] prop with that
    direction.  The result lists the rendered arrows with the outcome of
    clicking each; an exception of [canMove] aborts the render. *)
Definition PieceControlArrow {A} (canMove : MoveDirection → option bool)
    (onMove : MoveDirection → A) (direction : MoveDirection)
  : option (list (MoveDirection * A)) :=
  shown ← canMove direction;
  Some (if shown : bool then [(direction, onMove direction)] else []).

Definition PieceControls {A} (canMove : MoveDirection → option bool)
    (onMove : MoveDirection → A) : option (list (MoveDirection * A)) :=
  arrowUp ← PieceControlArrow canMove onMove Up;
  arrowDown ← PieceControlArrow canMove onMove Down;
  arrowLeft ← PieceControlArrow canMove onMove Left;
  arrowRight ← PieceControlArrow canMove onMove Right;
  Some (arrowUp ++ arrowDown ++ arrowLeft ++ arrowRight).

(** The controls of the piece [id] as [App] wires them. *)
Definition controlsOf (pieces : gmap Z Piece) (id : Z)
  : option (list (MoveDirection * option MoveResult)) :=
  PieceControls (λ direction, canMoveWithOthers pieces id direction)
                (λ direction, onMove pieces id direction).

(** [PuzzlePiece]: the absolutely positioned box of a piece, 120 pixels
    per cell, its label, and its controls when it is the selected piece.
    An exception of the [canMove] prop aborts the render. *)
Record PieceStyle := {
  style_width : Z; style_height : Z; style_left : Z; style_top : Z
}.

Record PuzzlePieceView := {
  view_style : PieceStyle;
  view_label : Z;
  view_controls : option (list (MoveDirection * option MoveResult))
}.

Definition PuzzlePiece (piece : Piece) (selected : bool)
    (canMove : MoveDirection → option bool)
    (onMove : MoveDirection → option MoveResult) : option PuzzlePieceView :=
  let topLeft := getTopLeft piece in
  let dims := getDimensions piece in
  controls ← (if selected then Some <$> PieceControls canMove onMove
              else Some None);
  Some {| view_style := {| style_width := 120 * width dims;
                           style_height := 120 * height dims;
                           style_left := 120 * pos_x topLeft;
                           style_top := 120 * pos_y topLeft |};
          view_label := getID piece;
          view_controls := controls |}.

(** The board part of the render of [App]: one [PuzzlePiece] per entry
    of the board, keyed by the entry's id, selected when that id is the
    [selected] state, and wired to [canMoveWithOthers] and [onMove] at
    that id.  (The boxes are positioned absolutely, so the order of the
    entries does not show.) *)
Definition App_render (pieces : gmap Z Piece) (selected : Z)
  : option (list (Z * PuzzlePieceView)) :=
  mapM (λ entry : Z * Piece,
          view ← PuzzlePiece entry.2 (bool_decide (entry.1 = selected))
                   (λ direction, canMoveWithOthers pieces entry.1 direction)
                   (λ direction, onMove pieces entry.1 direction);
          Some (entry.1, view))
       (map_to_list pieces).

(** The two pieces of state of [App], and their initial values. *)
Record AppState := { app_pieces : gmap Z Piece; app_selected : Z }.

Definition App_initial : AppState :=
  {| app_pieces := initializePieces; app_selected := -1 |}.

(** The three handlers the render installs: the click on a rendered
    piece selects it; the click on a rendered arrow of the selected piece
    calls [onMove] and stores the board it computes; the reset button
    restores the initial values. *)
Inductive AppStep : AppState → AppState → Prop :=
| step_select st views id view :
    App_render (app_pieces st) (app_selected st) = Some views →
    (id, view) ∈ views →
    AppStep st {| app_pieces := app_pieces st; app_selected := id |}
| step_arrow st views id view arrows direction result :
    App_render (app_pieces st) (app_selected st) = Some views →
    (id, view) ∈ views →
    view_controls view = Some arrows →
    (direction, Some result) ∈ arrows →
    AppStep st {| app_pieces := newPieces result;
                  app_selected := app_selected st |}
| step_reset st : AppStep st App_initial.

(** ** Playing sequences of moves *)

(** One accepted move: the validator answers true and the driver applies
    the move. *)
Definition acceptedMove (pieces : gmap Z Piece) (pieceID : Z)
    (direction : MoveDirection) : option (gmap Z Piece) :=
  ok ← canMoveWithOthers pieces pieceID direction;
  if ok : bool then newPieces <$> onMove pieces pieceID direction else None.

Definition play (moves : list (Z * MoveDirection)) (pieces : gmap Z Piece)
  : option (gmap Z Piece) :=
  foldl (λ board '(pieceID, direction),
           board ≫= λ pieces, acceptedMove pieces pieceID direction)
        (Some pieces) moves.

(** A shortest way to bring the Sun above the exit (112 moves). *)
Definition sunToExit : list (Z * MoveDirection) :=
  [ (3, Left); (6, Up); (6, Right); (3, Right); (4, Up); (8, Left); (9, Left);
    (7, Left); (6, Down); (3, Right); (5, Up); (6, Down); (9, Up); (8, Right);
    (4, Down); (5, Left); (3, Left); (2, Down); (2, Down); (1, Right);
    (0, Right); (5, Up); (4, Up); (5, Up); (4, Up); (8, Left); (9, Left);
    (7, Left); (6, Left); (2, Down); (3, Right); (6, Up); (7, Up); (8, Right);
    (8, Right); (7, Down); (0, Down); (5, Right); (4, Up); (9, Up); (7, Left);
    (0, Down); (0, Down); (9, Right); (9, Up); (3, Left); (2, Up); (3, Left);
    (8, Right); (6, Down); (2, Left); (8, Up); (6, Right); (2, Down);
    (3, Right); (3, Right); (0, Up); (4, Down); (5, Left); (9, Up); (0, Up);
    (2, Left); (6, Left); (8, Down); (3, Down); (1, Down); (9, Right);
    (5, Right); (4, Up); (7, Up); (9, Right); (5, Right); (0, Up); (2, Up);
    (6, Left); (6, Left); (8, Left); (8, Left); (3, Down); (1, Down);
    (5, Down); (5, Right); (0, Right); (2, Up); (2, Up); (1, Left); (5, Down);
    (5, Down); (9, Down); (9, Down); (0, Right); (2, Right); (4, Right);
    (7, Up); (7, Up); (1, Left); (5, Left); (5, Up); (3, Up); (8, Right);
    (6, Right); (8, Right); (6, Right); (1, Down); (5, Left); (5, Left);
    (9, Left); (9, Left); (3, Up); (6, Up); (6, Right); (1, Right) ].

(** ** Vocabulary of the properties *)

(** The occupied-cell set of a piece: the cells of the width x height
    rectangle that starts at its top-left corner. *)
Definition occupies (piece : Piece) (cell : PiecePosition) : Prop :=
  (pos_x (getTopLeft piece) ≤ pos_x cell
     < pos_x (getTopLeft piece) + width (getDimensions piece)) ∧
  (pos_y (getTopLeft piece) ≤ pos_y cell
     < pos_y (getTopLeft piece) + height (getDimensions piece)).

(** A cell of the grid, and a cell of the grid extended by [extra] rows
    below it. *)
Definition inRows (extra : Z) (cell : PiecePosition) : Prop :=
  (0 ≤ pos_x cell < GRID_WIDTH) ∧ (0 ≤ pos_y cell < GRID_HEIGHT + extra).

Definition inGrid (cell : PiecePosition) : Prop := inRows 0 cell.

Definition opposite (direction : MoveDirection) : MoveDirection :=
  match direction with
  | Up => Down | Down => Up | Left => Right | Right => Left
  end.

(** Whether a character occurs in a string. *)
Fixpoint occurs (c : ascii) (s : string) : Prop :=
  match s with
  | EmptyString => False
  | String a rest => a = c ∨ occurs c rest
  end.

(** Boards the game can show: the initial layout (also what the reset
    button restores), and what [onMove] makes of such a board. *)
Inductive driverState : gmap Z Piece → Prop :=
| driver_init : driverState initializePieces
| driver_move pieces pieceID direction result :
    driverState pieces →
    onMove pieces pieceID direction = Some result →
    driverState (newPieces result).

(** Boards reachable from the initial layout by moves the validator
    accepts. *)
Inductive reachable : gmap Z Piece → Prop :=
| reachable_init : reachable initializePieces
| reachable_move pieces pieceID direction result :
    reachable pieces →
    canMoveWithOthers pieces pieceID direction = Some true →
    onMove pieces pieceID direction = Some result →
    reachable (newPieces result).

(** Every key of the board is the id of the piece stored under it. *)
Definition keyConsistent (pieces : gmap Z Piece) : Prop :=
  ∀ k piece, pieces !! k = Some piece → getID piece = k.

(** Rows below the grid that the piece stored under [k] may reach: one
    for the Sun, which the win-exit move carries through the bottom edge,
    none for the others. *)
Definition extraRows (k : Z) : Z := if decide (k = SUN_ID) then 1 else 0.

(** The invariant of the boards reachable by accepted moves. *)
Record boardInv (pieces : gmap Z Piece) : Prop := {
  inv_keys : keyConsistent pieces;
  inv_sun : ∀ piece, pieces !! SUN_ID = Some piece →
            ∃ topLeft, piece = SunSquare topLeft SUN_ID;
  inv_disjoint : ∀ k1 k2 p1 p2, k1 ≠ k2 →
            pieces !! k1 = Some p1 → pieces !! k2 = Some p2 →
            ∀ cell, occupies p1 cell → ¬ occupies p2 cell;
  inv_rows : ∀ k piece, pieces !! k = Some piece →
            ∀ cell, occupies piece cell → inRows (extraRows k) cell
}.

(** Pairwise disjointness of the entries of a board, as a test. *)
Definition disjointEntries (entries : list (Z * Piece)) : bool :=
  forallb (λ e1, forallb (λ e2,
    bool_decide (e1.1 = e2.1) || negb (intersects e1.2 e2.2)) entries) entries.

(** The cells of a piece, listed column by column as [getCoveredArea]
    visits them. *)
Definition cellsOf (piece : Piece) : list PiecePosition :=
  i ← seqZ 0 (width (getDimensions piece));
  j ← seqZ 0 (height (getDimensions piece));
  [Pos (pos_x (getTopLeft piece) + i) (pos_y (getTopLeft piece) + j)].

(** Overlap of the bounding boxes of two pieces. *)
Definition boxesOverlap (p q : Piece) : Prop :=
  pos_x (getTopLeft p) < pos_x (getTopLeft q) + width (getDimensions q) ∧
  pos_x (getTopLeft q) < pos_x (getTopLeft p) + width (getDimensions p) ∧
  pos_y (getTopLeft p) < pos_y (getTopLeft q) + height (getDimensions q) ∧
  pos_y (getTopLeft q) < pos_y (getTopLeft p) + height (getDimensions p).

(** The pixels of a rendered box. *)
Definition inBox (style : PieceStyle) (px py : Z) : Prop :=
  (style_left style ≤ px < style_left style + style_width style) ∧
  (style_top style ≤ py < style_top style + style_height style).

(** Whether a piece is two cells long along a direction. *)
Definition longAlong (p : Piece) (d : MoveDirection) : Prop :=
  match d with
  | Up | Down => height (getDimensions p) = 2
  | Left | Right => width (getDimensions p) = 2
  end.

(** ** The arithmetic of the numbers of the source

    A [number] is an IEEE binary64 value.  On integers, the sum or the
    difference of two of them is the exact result rounded to the nearest
    value with a 53-bit significand, ties to the even significand;
    integers of magnitude up to 2^53 are exact.  (Finite range only: the
    overflow to infinity, far above 2^1023, is not modelled.  Likewise
    [JSON_stringify] prints all digits, as [JSON.stringify] does below
    10^21.) *)
Definition roundDouble (z : Z) : Z :=
  let a := Z.abs z in
  if bool_decide (a < 2 ^ 53) then z
  else
    let e := Z.log2 a - 52 in
    let q := a `div` 2 ^ e in
    let r := a `mod` 2 ^ e in
    let q' := if bool_decide (2 * r < 2 ^ e) then q
              else if bool_decide (2 ^ e < 2 * r) then q + 1
              else if Z.even q then q else q + 1 in
    Z.sgn z * (q' * 2 ^ e).

(** [Number.isSafeInteger] *)
Definition safeInteger (z : Z) : Prop := Z.abs z < 2 ^ 53.

Definition safePosition (position : PiecePosition) : Prop :=
  safeInteger (pos_x position) ∧ safeInteger (pos_y position).

(** A piece whose top-left corner has safe integer coordinates. *)
Definition safePiece (piece : Piece) : Prop := safePosition (getTopLeft piece).

(** The functions of piece.ts that compute with coordinates, with every
    [+] and [-] of the source rounded. *)
Module Double.

Definition add (a b : Z) : Z := roundDouble (a + b).
Definition sub (a b : Z) : Z := roundDouble (a - b).

Definition movePosition (position : PiecePosition) (direction : MoveDirection)
  : PiecePosition :=
  match direction with
  | Up => Pos (pos_x position) (sub (pos_y position) 1)
  | Down => Pos (pos_x position) (add (pos_y position) 1)
  | Left => Pos (sub (pos_x position) 1) (pos_y position)
  | Right => Pos (add (pos_x position) 1) (pos_y position)
  end.

Definition squares (this : Piece) : list Square :=
  match this with
  | ASquare _ => []
  | VerticalRect topLeft _ =>
      [ new_Square topLeft (-1);
        new_Square (Pos (pos_x topLeft) (add (pos_y topLeft) 1)) (-1) ]
  | HorizontalRect topLeft _ =>
      [ new_Square topLeft (-1);
        new_Square (Pos (add (pos_x topLeft) 1) (pos_y topLeft)) (-1) ]
  | SunSquare topLeft _ =>
      [ new_Square topLeft (-1);
        new_Square (Pos (add (pos_x topLeft) 1) (pos_y topLeft)) (-1);
        new_Square (Pos (pos_x topLeft) (add (pos_y topLeft) 1)) (-1);
        new_Square (Pos (add (pos_x topLeft) 1) (add (pos_y topLeft) 1)) (-1) ]
  end.

Definition getTopLeft (this : Piece) : PiecePosition :=
  match this with
  | ASquare s => Square_topLeft s
  | _ =>
      match squares this with
      | square0 :: _ => Square_topLeft square0
      | [] => Pos 0 0
      end
  end.

Definition canMove (this : Piece) (direction : MoveDirection) : bool :=
  match this with
  | ASquare s => Square_canMove s direction
  | _ => forallb (λ square, Square_canMove square direction) (squares this)
  end.

Definition move (this : Piece) (direction : MoveDirection) : Piece :=
  match this with
  | ASquare s =>
      ASquare (new_Square (movePosition (Square_topLeft s) direction) (Square_id s))
  | VerticalRect _ id =>
      VerticalRect (movePosition (getTopLeft this) direction) id
  | HorizontalRect _ id =>
      HorizontalRect (movePosition (getTopLeft this) direction) id
  | SunSquare _ id =>
      SunSquare (movePosition (getTopLeft this) direction) id
  end.

Definition getCoveredArea (piece : Piece) : gset string :=
  let topLeft := getTopLeft piece in
  let dims := getDimensions piece in
  foldl (λ area i,
    foldl (λ area j,
      {[ JSON_stringify (Pos (add (pos_x topLeft) i) (add (pos_y topLeft) j)) ]}
      ∪ area)
      area (seqZ 0 (height dims)))
    ∅ (seqZ 0 (width dims)).

Definition intersects (this other : Piece) : bool :=
  areasOverlap (getCoveredArea this) (getCoveredArea other).

End Double.

(** A move the claim calls illegal: the win exemption does not apply,
    and either the moved piece overlaps a piece stored under a key other
    than its id, or the piece is inside the grid and the moved piece has
    a cell outside it. *)
Definition illegalMove (pieces : gmap Z Piece) (id : Z) (piece : Piece)
    (direction : MoveDirection) : Prop :=
  checkWinCondition id piece direction = false ∧
  ((∃ k other cell, k ≠ getID piece ∧ pieces !! k = Some other ∧
      occupies (move piece direction) cell ∧ occupies other cell) ∨
   ((∀ cell, occupies piece cell → inGrid cell) ∧
    ∃ cell, occupies (move piece direction) cell ∧ ¬ inGrid cell)).

(** ** The stringified coordinates *)

Section stringify.

Lemma pretty_N_go_free c x s :
  (∀ n, pretty_N_char n ≠ c) → ¬ occurs c s → ¬ occurs c (pretty_N_go x s).
Proof.
  intros Hdigit. revert s.
  induction (N.lt_wf_0 x) as [x _ IH]; intros s Hs.
  destruct (decide (x = 0)%N) as [->|Hx].
  - by rewrite pretty_N_go_0.
  - rewrite pretty_N_go_step by lia.
    apply IH; [apply N.div_lt; lia|].
    simpl. intros [Hc|Hc]; [by eapply Hdigit|by apply Hs].
Qed.

Lemma pretty_N_free c (x : N) :
  (∀ n, pretty_N_char n ≠ c) → ¬ occurs c (pretty x).
Proof.
  intros Hdigit. unfold pretty, pretty_N. case_decide.
  - simpl. intros [Hc|[]]. by apply (Hdigit 0%N).
  - apply pretty_N_go_free; [done|simpl; tauto].
Qed.

Lemma pretty_Z_free c (z : Z) :
  (∀ n, pretty_N_char n ≠ c) → c ≠ "-"%char → ¬ occurs c (pretty z).
Proof.
  intros Hdigit Hdash. destruct z as [|p|p]; unfold pretty, pretty_Z.
  - simpl. intros [Hc|[]]. by apply (Hdigit 0%N).
  - by apply pretty_N_free.
  - simpl. intros [Hc|Hc]; [done|]. by apply (pretty_N_free c (N.pos p)).
Qed.

Lemma comma_no_digit n : pretty_N_char n ≠ ","%char.
Proof. unfold pretty_N_char. by repeat case_match. Qed.

Lemma brace_no_digit n : pretty_N_char n ≠ "}"%char.
Proof. unfold pretty_N_char. by repeat case_match. Qed.

(** Two strings free of [c], each followed by [c], are cut at the same
    place. *)
Lemma append_sep_inj c s1 s2 r1 r2 :
  ¬ occurs c s1 → ¬ occurs c s2 →
  s1 +:+ String c r1 = s2 +:+ String c r2 → s1 = s2 ∧ r1 = r2.
Proof.
  revert s2. induction s1 as [|a s1 IH]; intros [|b s2] H1 H2 Heq;
    simpl in *.
  - by injection Heq.
  - injection Heq as <- _. tauto.
  - injection Heq as -> _. tauto.
  - injection Heq as -> Heq.
    destruct (IH s2) as [-> ->]; [tauto..|done|done].
Qed.

Global Instance JSON_stringify_inj : Inj (=) (=) JSON_stringify.
Proof.
  intros [x1 y1] [x2 y2]; unfold JSON_stringify; simpl pos_x; simpl pos_y.
  generalize (pretty_Z_free _ x1 comma_no_digit ltac:(done)).
  generalize (pretty_Z_free _ x2 comma_no_digit ltac:(done)).
  generalize (pretty_Z_free _ y1 brace_no_digit ltac:(done)).
  generalize (pretty_Z_free _ y2 brace_no_digit ltac:(done)).
  intros Hy2 Hy1 Hx2 Hx1 Heq.
  assert (pretty x1 = pretty x2 ∧ pretty y1 = pretty y2) as [Hx Hy].
  { revert Hy2 Hy1 Hx2 Hx1 Heq.
    generalize (pretty x1) (pretty x2) (pretty y1) (pretty y2).
    intros sx1 sx2 sy1 sy2 Hy2 Hy1 Hx2 Hx1 Heq.
    cbn [String.append dquote] in Heq.
    injection Heq as Heq.
    apply append_sep_inj in Heq as [-> Heq]; [|done..].
    cbn [String.append] in Heq. injection Heq as Heq.
    apply append_sep_inj in Heq as [-> _]; done. }
  by rewrite (inj pretty _ _ Hx), (inj pretty _ _ Hy).
Qed.

End stringify.

(** ** Covered areas and overlap *)

Section areas.

(** The two nested loops of [getCoveredArea], over any index lists and
    any starting set. *)
Lemma elem_of_inner_loop (g : Z → string) (ys : list Z) (area : gset string) s :
  s ∈ foldl (λ area j, {[ g j ]} ∪ area) area ys ↔
  s ∈ area ∨ ∃ j, j ∈ ys ∧ s = g j.
Proof.
  revert area. induction ys as [|j ys IH]; intros area; simpl.
  - split; [by left|]. intros [?|(j & Hj & _)]; [done|].
    by apply not_elem_of_nil in Hj.
  - rewrite IH, elem_of_union, elem_of_singleton. split.
    + intros [[->|?]|(j' & ? & ->)]; [right|by left|right].
      * exists j. split; [left|done].
      * exists j'. split; [by right|done].
    + intros [?|(j' & Hj' & ->)]; [by left; right|].
      apply elem_of_cons in Hj' as [->|?]; [by left; left|].
      right. by exists j'.
Qed.

Lemma elem_of_outer_loop (g : Z → Z → string) (xs ys : list Z)
    (area : gset string) s :
  s ∈ foldl (λ area i, foldl (λ area j, {[ g i j ]} ∪ area) area ys) area xs ↔
  s ∈ area ∨ ∃ i j, i ∈ xs ∧ j ∈ ys ∧ s = g i j.
Proof.
  revert area. induction xs as [|i xs IH]; intros area; simpl.
  - split; [by left|]. intros [?|(i & j & Hi & _)]; [done|].
    by apply not_elem_of_nil in Hi.
  - rewrite IH, (elem_of_inner_loop (g i)). split.
    + intros [[?|(j & ? & ->)]|(i' & j & ? & ? & ->)].
      * by left.
      * right. exists i, j. split; [left|done].
      * right. exists i', j. split; [by right|done].
    + intros [?|(i' & j & Hi' & ? & ->)]; [by left; left|].
      apply elem_of_cons in Hi' as [->|?].
      * left; right. by exists j.
      * right. by exists i', j.
Qed.

(** The covered area is the set of the stringified occupied cells. *)
Lemma elem_of_getCoveredArea piece s :
  s ∈ getCoveredArea piece ↔ ∃ cell, occupies piece cell ∧ s = JSON_stringify cell.
Proof.
  unfold getCoveredArea.
  rewrite (elem_of_outer_loop (λ i j,
    JSON_stringify (Pos (pos_x (getTopLeft piece) + i) (pos_y (getTopLeft piece) + j)))).
  unfold occupies. split.
  - intros [Hs|(i & j & Hi & Hj & ->)]; [by apply not_elem_of_empty in Hs|].
    apply elem_of_seqZ in Hi, Hj. eexists; split; [|done]. simpl. lia.
  - intros ([cx cy] & [Hx Hy] & ->). simpl in Hx, Hy. right.
    exists (cx - pos_x (getTopLeft piece)), (cy - pos_y (getTopLeft piece)).
    rewrite !elem_of_seqZ. split_and!; [lia..|]. f_equal. f_equal; lia.
Qed.

Lemma areasOverlap_spec (area1 area2 : gset string) :
  areasOverlap area1 area2 = true ↔ ∃ point, point ∈ area1 ∧ point ∈ area2.
Proof.
  unfold areasOverlap. rewrite bool_decide_eq_true. split.
  - intros Hsize. apply size_pos_elem_of in Hsize as [point Hpoint].
    apply elem_of_list_to_set, list_elem_of_filter in Hpoint as [? Hpoint].
    apply elem_of_elements in Hpoint. by exists point.
  - intros (point & H1 & H2).
    assert (size (list_to_set (filter (λ point, point ∈ area2) (elements area1))
                    : gset string) ≠ 0%nat); [|lia].
    apply size_non_empty_iff, (non_empty_inhabited point).
    apply elem_of_list_to_set, list_elem_of_filter.
    split; [done|by apply elem_of_elements].
Qed.

(** [intersects] decides whether the two occupied-cell sets meet. *)
Lemma intersects_spec p q :
  intersects p q = true ↔ ∃ cell, occupies p cell ∧ occupies q cell.
Proof.
  unfold intersects. rewrite areasOverlap_spec. split.
  - intros (point & Hp & Hq).
    apply elem_of_getCoveredArea in Hp as (cell & Hcell & ->).
    apply elem_of_getCoveredArea in Hq as (cell' & Hcell' & Heq).
    apply (inj JSON_stringify) in Heq as <-. by exists cell.
  - intros (cell & Hp & Hq). exists (JSON_stringify cell).
    split; apply elem_of_getCoveredArea; by exists cell.
Qed.

Lemma intersects_false p q :
  intersects p q = false ↔ ∀ cell, occupies p cell → ¬ occupies q cell.
Proof.
  rewrite <-not_true_iff_false, intersects_spec. split.
  - intros Hno cell ??. apply Hno. by exists cell.
  - intros Hno (cell & ? & ?). by apply (Hno cell).
Qed.

Lemma intersects_comm p q : intersects p q = intersects q p.
Proof.
  destruct (intersects q p) eqn:Hqp.
  - apply intersects_spec in Hqp as (cell & ? & ?).
    apply intersects_spec. by exists cell.
  - apply intersects_false. intros cell Hp Hq.
    by apply (proj1 (intersects_false q p) Hqp cell).
Qed.

End areas.

(** C9. [intersects] is symmetric: [p.intersects(q)] and [q.intersects(p)]
    are the same boolean, for all pieces. *)
Theorem intersects_symmetric (p q : Piece) : intersects p q = intersects q p.
Proof. apply intersects_comm. Qed.

(** ** Moving a single piece *)

Section single_piece.

Lemma getID_move p d : getID (move p d) = getID p.
Proof. by destruct p. Qed.

Lemma getDimensions_move p d : getDimensions (move p d) = getDimensions p.
Proof. by destruct p. Qed.

Lemma getTopLeft_move p d :
  getTopLeft (move p d) = movePosition (getTopLeft p) d.
Proof. by destruct p. Qed.

Lemma dimensions_range p :
  1 ≤ width (getDimensions p) ≤ 2 ∧ 1 ≤ height (getDimensions p) ≤ 2.
Proof. destruct p; simpl; lia. Qed.

(** [canMove] in terms of the bounding box: only the side the piece
    moves towards is compared with the border. *)
Lemma canMove_arith p d :
  canMove p d = true ↔
  match d with
  | Up => pos_y (getTopLeft p) > 0
  | Down => pos_y (getTopLeft p) + height (getDimensions p) < GRID_HEIGHT
  | Left => pos_x (getTopLeft p) > 0
  | Right => pos_x (getTopLeft p) + width (getDimensions p) < GRID_WIDTH
  end.
Proof.
  unfold GRID_HEIGHT, GRID_WIDTH.
  destruct p as [[[x y] id]|[x y] id|[x y] id|[x y] id], d; simpl;
    rewrite ?andb_true_iff, ?bool_decide_eq_true;
    unfold GRID_HEIGHT, GRID_WIDTH; lia.
Qed.

Lemma occupies_corners p :
  occupies p (getTopLeft p) ∧
  occupies p (Pos (pos_x (getTopLeft p) + width (getDimensions p) - 1)
                  (pos_y (getTopLeft p) + height (getDimensions p) - 1)).
Proof. pose proof (dimensions_range p). unfold occupies; simpl. lia. Qed.

(** A piece lies within the grid extended by [extra] rows exactly when
    its bounding box does. *)
Lemma within_rows_box extra p :
  (∀ cell, occupies p cell → inRows extra cell) ↔
  0 ≤ pos_x (getTopLeft p) ∧
  pos_x (getTopLeft p) + width (getDimensions p) ≤ GRID_WIDTH ∧
  0 ≤ pos_y (getTopLeft p) ∧
  pos_y (getTopLeft p) + height (getDimensions p) ≤ GRID_HEIGHT + extra.
Proof.
  split.
  - intros Hin. destruct (occupies_corners p) as [H1 H2].
    apply Hin in H1, H2. unfold inRows in *; simpl in *. lia.
  - intros Hbox cell Hcell. unfold occupies, inRows in *. lia.
Qed.

Lemma occupies_move p d cell :
  occupies p cell ↔ occupies (move p d) (movePosition cell d).
Proof.
  unfold occupies. rewrite getTopLeft_move, getDimensions_move.
  destruct d; simpl; lia.
Qed.

(** A legal step keeps a piece inside the (possibly extended) grid it is
    in. *)
Lemma canMove_keeps_rows extra p d :
  0 ≤ extra →
  (∀ cell, occupies p cell → inRows extra cell) →
  canMove p d = true →
  ∀ cell, occupies (move p d) cell → inRows extra cell.
Proof.
  intros Hextra Hin Hcan. apply within_rows_box.
  apply within_rows_box in Hin. apply canMove_arith in Hcan.
  rewrite getTopLeft_move, getDimensions_move.
  pose proof (dimensions_range p).
  unfold GRID_HEIGHT, GRID_WIDTH in *. destruct d; simpl; lia.
Qed.

Lemma checkWinCondition_true pieceID piece direction :
  checkWinCondition pieceID piece direction = true ↔
  pieceID = 1 ∧ direction = Down ∧ getTopLeft piece = Pos 1 3.
Proof.
  unfold checkWinCondition, SUN_ID, GRID_HEIGHT.
  destruct (getTopLeft piece) as [x y]; simpl. split.
  - intros Hwin.
    destruct (bool_decide_reflect (direction = Down)) as [->|];
      destruct (bool_decide_reflect (pieceID = 1)) as [->|];
      simpl in Hwin; try discriminate.
    apply andb_true_iff in Hwin as [Hx Hy].
    apply bool_decide_eq_true in Hx, Hy.
    split_and!; [done..|]. f_equal; lia.
  - intros (-> & -> & [= -> ->]). reflexivity.
Qed.

End single_piece.

(** C3. [checkWinCondition] answers true exactly when the identity is the
    one of the Sun (1), the direction is down and the top-left corner of
    the piece, before the move, is (1, GRID_HEIGHT - 2) = (1, 3); in every
    other case it answers false. *)
Theorem checkWinCondition_iff (pieceID : Z) (piece : Piece) (direction : MoveDirection) :
  (checkWinCondition pieceID piece direction = true ↔
     pieceID = 1 ∧ direction = Down ∧ getTopLeft piece = Pos 1 3) ∧
  (checkWinCondition pieceID piece direction = false ↔
     ¬ (pieceID = 1 ∧ direction = Down ∧ getTopLeft piece = Pos 1 3)) ∧
  SUN_ID = 1 ∧ GRID_HEIGHT - 2 = 3.
Proof.
  pose proof (checkWinCondition_true pieceID piece direction) as Hiff.
  split_and!; [done| |done..].
  rewrite <-Hiff. symmetry. apply not_true_iff_false.
Qed.

(** C8. For every piece of any of the four shapes and every direction,
    moving one step and then one step in the opposite direction gives
    back a piece equal to the original: same class, same id, same
    top-left corner.  This holds for all positions, so in particular when
    both moves stay within the grid. *)
Theorem move_then_opposite (p : Piece) (d : MoveDirection) :
  move (move p d) (opposite d) = p.
Proof.
  destruct p as [[[x y] id]|[x y] id|[x y] id|[x y] id], d;
    unfold move, opposite, movePosition, getTopLeft, squares; simpl;
    repeat f_equal; lia.
Qed.

(** ** The board: validator and driver *)

Section board.

Implicit Types pieces : gmap Z Piece.

(** The loop of the updater rebuilds the old board, with the entry
    under the moved piece's id (if there is one) replaced. *)
Lemma updatePieces_lookup movedPieceID movedPiece pieces k :
  updatePieces movedPieceID movedPiece pieces !! k =
  if decide (k = movedPieceID) then (λ _, movedPiece) <$> pieces !! k
  else pieces !! k.
Proof.
  unfold updatePieces. revert k.
  apply (map_fold_weak_ind (λ updated old, ∀ k,
    updated !! k = if decide (k = movedPieceID)
                   then (λ _, movedPiece) <$> old !! k else old !! k)).
  - intros k. rewrite !lookup_empty. by case_decide.
  - intros i other old updated Hfresh IH k.
    case_bool_decide as Hi; [subst i|].
    + destruct (decide (k = movedPieceID)) as [->|Hk].
      * by rewrite !lookup_insert_eq.
      * rewrite !lookup_insert_ne by done. rewrite IH. by case_decide.
    + destruct (decide (k = i)) as [->|Hk].
      * rewrite !lookup_insert_eq. by case_decide.
      * rewrite !lookup_insert_ne by done. apply IH.
Qed.

Lemma updatePieces_insert movedPieceID movedPiece pieces piece :
  pieces !! movedPieceID = Some piece →
  updatePieces movedPieceID movedPiece pieces
  = <[movedPieceID := movedPiece]> pieces.
Proof.
  intros Hpiece. apply map_eq. intros k. rewrite updatePieces_lookup.
  case_decide as Hk; [subst k|].
  - by rewrite Hpiece, lookup_insert_eq.
  - by rewrite lookup_insert_ne.
Qed.

Lemma updatePieces_absent movedPieceID movedPiece pieces :
  pieces !! movedPieceID = None →
  updatePieces movedPieceID movedPiece pieces = pieces.
Proof.
  intros Hnone. apply map_eq. intros k. rewrite updatePieces_lookup.
  case_decide as Hk; [subst k|done]. by rewrite Hnone.
Qed.

(** [onMove] never consults the validator: on a present id it always
    succeeds. *)
Lemma onMove_present pieces pieceID piece direction :
  pieces !! pieceID = Some piece →
  onMove pieces pieceID direction =
  Some {| alerted := checkWinCondition pieceID piece direction;
          newPieces := updatePieces (getID piece) (move piece direction) pieces |}.
Proof.
  intros Hpiece. unfold onMove, findPiece. rewrite Hpiece. simpl.
  by rewrite getID_move.
Qed.

Lemma onMove_insert pieces pieceID piece direction :
  pieces !! pieceID = Some piece → getID piece = pieceID →
  onMove pieces pieceID direction =
  Some {| alerted := checkWinCondition pieceID piece direction;
          newPieces := <[pieceID := move piece direction]> pieces |}.
Proof.
  intros Hpiece Hid. rewrite (onMove_present _ _ piece) by done.
  rewrite Hid. by erewrite updatePieces_insert.
Qed.

Lemma overlapsNoOther_spec movedPieceID movedPiece (entries : list (Z * Piece)) :
  overlapsNoOther movedPieceID movedPiece entries = true ↔
  ∀ otherPieceID otherPiece, (otherPieceID, otherPiece) ∈ entries →
    otherPieceID ≠ movedPieceID → intersects otherPiece movedPiece = false.
Proof.
  induction entries as [|[k other] entries IH]; simpl.
  - split; [|done]. intros _ ?? Hin. by apply not_elem_of_nil in Hin.
  - destruct (bool_decide_reflect (k ≠ movedPieceID)) as [Hk|Hk]; simpl.
    + destruct (intersects other movedPiece) eqn:Hint.
      * split; [done|]. intros Hall.
        rewrite (Hall k other) in Hint; [done|left|done].
      * rewrite IH. split.
        -- intros Hall k' other' Hin Hk'.
           apply elem_of_cons in Hin as [[= -> ->]|Hin]; [done|].
           by apply (Hall k' other').
        -- intros Hall k' other' Hin. apply Hall. by right.
    + rewrite IH. split.
      * intros Hall k' other' Hin Hk'.
        apply elem_of_cons in Hin as [[= -> ->]|Hin]; [done|].
        by apply (Hall k' other').
      * intros Hall k' other' Hin. apply Hall. by right.
Qed.

(** The three stages of the validator. *)
Lemma canMoveWithOthers_present pieces pieceID piece direction :
  pieces !! pieceID = Some piece →
  canMoveWithOthers pieces pieceID direction =
  Some (if checkWinCondition pieceID piece direction then true
        else if canMove piece direction
             then overlapsNoOther (getID (move piece direction))
                    (move piece direction) (map_to_list pieces)
             else false).
Proof.
  intros Hpiece. unfold canMoveWithOthers, findPiece. rewrite Hpiece. simpl.
  destruct (checkWinCondition _ _ _); [done|].
  by destruct (canMove _ _).
Qed.

Lemma initializePieces_keyConsistent : keyConsistent initializePieces.
Proof.
  intros k piece Hk. apply elem_of_map_to_list in Hk.
  revert Hk. vm_compute map_to_list. intros Hk.
  repeat (apply elem_of_cons in Hk as [[= -> ->]|Hk]; [done|]).
  by apply not_elem_of_nil in Hk.
Qed.

Lemma onMove_keyConsistent pieces pieceID direction result :
  keyConsistent pieces →
  onMove pieces pieceID direction = Some result →
  keyConsistent (newPieces result).
Proof.
  intros Hkeys Hmove. unfold onMove, findPiece in Hmove.
  destruct (pieces !! pieceID) as [piece|] eqn:Hpiece; [|done].
  simpl in Hmove. injection Hmove as <-. simpl.
  rewrite getID_move, (Hkeys _ _ Hpiece).
  erewrite updatePieces_insert by done.
  intros k p Hk. destruct (decide (k = pieceID)) as [->|Hne].
  - rewrite lookup_insert_eq in Hk. injection Hk as <-.
    rewrite getID_move. by apply Hkeys.
  - rewrite lookup_insert_ne in Hk by done. by apply Hkeys.
Qed.

Lemma driverState_keyConsistent pieces :
  driverState pieces → keyConsistent pieces.
Proof.
  induction 1 as [|pieces pieceID direction result _ IH Hmove].
  - apply initializePieces_keyConsistent.
  - by eapply onMove_keyConsistent.
Qed.

Lemma elem_of_arrow {A} (shown : bool) (d d0 : MoveDirection) (o o0 : A) :
  (d, o) ∈ (if shown then [(d0, o0)] else []) ↔ shown = true ∧ d = d0 ∧ o = o0.
Proof.
  destruct shown.
  - rewrite list_elem_of_singleton. split.
    + by intros [= -> ->].
    + by intros (_ & -> & ->).
  - split; [by intros ?%not_elem_of_nil|by intros [? _]].
Qed.

Lemma reachable_driverState pieces : reachable pieces → driverState pieces.
Proof. induction 1; by econstructor. Qed.

Lemma play_reachable moves pieces pieces' :
  reachable pieces → play moves pieces = Some pieces' → reachable pieces'.
Proof.
  unfold play. revert pieces.
  induction moves as [|[pieceID direction] moves IH]; intros pieces Hreach; simpl.
  - by intros [= <-].
  - unfold acceptedMove at 2.
    destruct (canMoveWithOthers pieces pieceID direction) as [[]|] eqn:Hok;
      simpl.
    + destruct (onMove pieces pieceID direction) as [result|] eqn:Hmove; simpl.
      * apply IH. by eapply reachable_move.
      * clear. induction moves as [|[??] ? IHm]; [done|apply IHm].
    + clear. induction moves as [|[??] ? IHm]; [done|apply IHm].
    + clear. induction moves as [|[??] ? IHm]; [done|apply IHm].
Qed.

(** The solution is playable, and one more step down, which the
    validator accepts, carries the Sun through the exit. *)
Lemma exit_reachable :
  ∃ pieces, reachable pieces ∧
    pieces !! SUN_ID = Some (SunSquare (Pos 1 4) SUN_ID).
Proof.
  assert (play (sunToExit ++ [(SUN_ID, Down)]) initializePieces
            ≫= (.!! SUN_ID) = Some (SunSquare (Pos 1 4) SUN_ID)) as Hsun
    by (vm_compute; reflexivity).
  destruct (play (sunToExit ++ [(SUN_ID, Down)]) initializePieces)
    as [pieces|] eqn:Hplay; [|discriminate Hsun].
  exists pieces. split; [|exact Hsun].
  eapply play_reachable; [apply reachable_init|exact Hplay].
Qed.

End board.

(** C4. For every board, every identity present on it and every
    direction, the validator answers true at once when the win-exit
    exception applies, although the ordinary bounds test rejects that move
    of the Sun; otherwise it answers false when the piece cannot move
    alone; otherwise it answers true exactly when the moved piece
    intersects no piece stored under a key different from the moved
    piece's id (the moved piece is never tested against its own entry). *)
Theorem canMoveWithOthers_stages (pieces : gmap Z Piece) (pieceID : Z)
    (piece : Piece) (direction : MoveDirection) :
  pieces !! pieceID = Some piece →
  let winExit :=
    pieceID = SUN_ID ∧ direction = Down ∧ getTopLeft piece = Pos 1 3 in
  (winExit →
     checkWinCondition pieceID piece direction = true ∧
     canMoveWithOthers pieces pieceID direction = Some true ∧
     (∀ topLeft id, piece = SunSquare topLeft id →
        canMove piece direction = false)) ∧
  (¬ winExit → canMove piece direction = false →
     canMoveWithOthers pieces pieceID direction = Some false) ∧
  (¬ winExit → canMove piece direction = true →
     ∃ answer, canMoveWithOthers pieces pieceID direction = Some answer ∧
       (answer = true ↔
        ∀ otherPieceID otherPiece, pieces !! otherPieceID = Some otherPiece →
          otherPieceID ≠ getID (move piece direction) →
          intersects (move piece direction) otherPiece = false)).
Proof.
  intros Hpiece winExit.
  rewrite (canMoveWithOthers_present _ _ piece) by done.
  assert (¬ winExit → checkWinCondition pieceID piece direction = false)
    as Hnowin.
  { intros Hno. apply not_true_iff_false.
    by rewrite checkWinCondition_true. }
  split_and!.
  - intros Hexit. pose proof Hexit as (_ & -> & Htl).
    apply checkWinCondition_true in Hexit as Hwin. rewrite Hwin.
    split_and!; [done..|].
    intros topLeft id ->. apply not_true_iff_false.
    rewrite canMove_arith, Htl. unfold GRID_HEIGHT; simpl. lia.
  - intros Hno%Hnowin Hcan. by rewrite Hno, Hcan.
  - intros Hno%Hnowin Hcan. rewrite Hno, Hcan. eexists; split; [done|].
    rewrite overlapsNoOther_spec. split.
    + intros Hall k other Hk Hne. rewrite intersects_comm.
      apply (Hall k); [by apply elem_of_map_to_list|done].
    + intros Hall k other Hk Hne. rewrite intersects_comm.
      apply (Hall k); [by apply elem_of_map_to_list|done].
Qed.

Lemma canMoveWithOthers_stages_witness :
  initializePieces !! 3 = Some (HorizontalRect (Pos 1 2) 3) ∧
  canMove (HorizontalRect (Pos 1 2) 3) Left = true ∧
  ∃ answer, canMoveWithOthers initializePieces 3 Left = Some answer ∧
    (answer = true ↔
     ∀ otherPieceID otherPiece, initializePieces !! otherPieceID = Some otherPiece →
       otherPieceID ≠ getID (move (HorizontalRect (Pos 1 2) 3) Left) →
       intersects (move (HorizontalRect (Pos 1 2) 3) Left) otherPiece = false).
Proof.
  split_and!; [vm_compute; reflexivity..|].
  apply (canMoveWithOthers_stages initializePieces 3 (HorizontalRect (Pos 1 2) 3) Left).
  - vm_compute; reflexivity.
  - intros (Hid & _). discriminate Hid.
  - vm_compute; reflexivity.
Defined.

(** C7. On a board of the game, a move of the piece stored under [k]
    (accepted by the validator or not) gives a board that maps [k] to the
    moved piece and every other key to the piece it had; the keys are the
    same as before. *)
Theorem onMove_replaces_one_entry (pieces : gmap Z Piece) (k : Z) (piece : Piece)
    (direction : MoveDirection) :
  driverState pieces →
  pieces !! k = Some piece →
  ∃ result, onMove pieces k direction = Some result ∧
    newPieces result !! k = Some (move piece direction) ∧
    (∀ k', k' ≠ k → newPieces result !! k' = pieces !! k') ∧
    dom (newPieces result) = dom pieces.
Proof.
  intros Hstate Hpiece.
  pose proof (driverState_keyConsistent _ Hstate _ _ Hpiece) as Hid.
  eexists. split; [by apply onMove_insert|]. simpl. split_and!.
  - by rewrite lookup_insert_eq.
  - intros k' Hk'. by rewrite lookup_insert_ne.
  - by apply dom_insert_lookup_L.
Qed.

Lemma onMove_replaces_one_entry_witness :
  driverState initializePieces ∧
  initializePieces !! 3 = Some (HorizontalRect (Pos 1 2) 3) ∧
  canMoveWithOthers initializePieces 3 Left = Some true ∧
  ∃ result, onMove initializePieces 3 Left = Some result ∧
    newPieces result !! 3 = Some (move (HorizontalRect (Pos 1 2) 3) Left) ∧
    (∀ k', k' ≠ 3 → newPieces result !! k' = initializePieces !! k') ∧
    dom (newPieces result) = dom initializePieces.
Proof.
  split_and!; [apply driver_init|vm_compute; reflexivity..|].
  apply (onMove_replaces_one_entry initializePieces 3
           (HorizontalRect (Pos 1 2) 3) Left);
    [apply driver_init|vm_compute; reflexivity].
Defined.

(** C10. Key consistency is an invariant of the board: it holds on the
    initial board, every [onMove] preserves it, hence every board of the
    game has it; and [move] keeps the id of a piece, for the four
    classes. *)
Theorem keys_are_piece_ids :
  keyConsistent initializePieces ∧
  (∀ pieces pieceID direction result,
     keyConsistent pieces →
     onMove pieces pieceID direction = Some result →
     keyConsistent (newPieces result)) ∧
  (∀ pieces, driverState pieces →
     ∀ k piece, pieces !! k = Some piece → getID piece = k) ∧
  (∀ piece direction, getID (move piece direction) = getID piece).
Proof.
  split_and!.
  - apply initializePieces_keyConsistent.
  - apply onMove_keyConsistent.
  - apply driverState_keyConsistent.
  - apply getID_move.
Qed.

Lemma keys_are_piece_ids_witness :
  ∃ result, onMove initializePieces 3 Left = Some result ∧
    keyConsistent (newPieces result) ∧
    newPieces result !! 3 = Some (HorizontalRect (Pos 0 2) 3).
Proof.
  eexists. split; [vm_compute; reflexivity|]. split.
  - apply (proj1 (proj2 keys_are_piece_ids) initializePieces 3 Left _
             (proj1 keys_are_piece_ids)).
    vm_compute; reflexivity.
  - vm_compute; reflexivity.
Defined.

(** C1, as stated, fails: on the initial board the validator rejects
    moving piece 0 up (it would leave the grid) and right (it would
    overlap the Sun), yet [onMove] installs the moved piece both times. *)
Lemma onMove_applies_illegal_moves :
  initializePieces !! 0 = Some (VerticalRect (Pos 0 0) 0) ∧
  (canMoveWithOthers initializePieces 0 Up = Some false ∧
   ∃ result, onMove initializePieces 0 Up = Some result ∧
     newPieces result !! 0 = Some (VerticalRect (Pos 0 (-1)) 0) ∧
     newPieces result ≠ initializePieces) ∧
  (canMoveWithOthers initializePieces 0 Right = Some false ∧
   intersects (VerticalRect (Pos 1 0) 0) (SunSquare (Pos 1 0) SUN_ID) = true ∧
   ∃ result, onMove initializePieces 0 Right = Some result ∧
     newPieces result !! 0 = Some (VerticalRect (Pos 1 0) 0) ∧
     newPieces result ≠ initializePieces).
Proof.
  assert (∀ (b : gmap Z Piece) p, b !! 0 = Some p →
            p ≠ VerticalRect (Pos 0 0) 0 → b ≠ initializePieces) as Hne.
  { intros b p Hb Hp ->. apply Hp.
    assert (initializePieces !! 0 = Some (VerticalRect (Pos 0 0) 0)) as Hinit
      by (vm_compute; reflexivity).
    congruence. }
  split_and!; try (vm_compute; reflexivity).
  - eexists. split; [vm_compute; reflexivity|].
    split; [vm_compute; reflexivity|].
    eapply Hne; [vm_compute; reflexivity|discriminate].
  - eexists. split; [vm_compute; reflexivity|].
    split; [vm_compute; reflexivity|].
    eapply Hne; [vm_compute; reflexivity|discriminate].
Qed.

(** C5, as stated, fails: the Sun hanging through the exit, a position a
    game reaches, may move left although its footprint is then partly
    outside the grid. *)
Lemma canMove_true_outside_grid :
  (∃ pieces, reachable pieces ∧
     pieces !! SUN_ID = Some (SunSquare (Pos 1 4) SUN_ID)) ∧
  canMove (SunSquare (Pos 1 4) SUN_ID) Left = true ∧
  occupies (SunSquare (Pos 1 4) SUN_ID) (Pos 1 5) ∧
  ¬ inGrid (movePosition (Pos 1 5) Left).
Proof.
  split; [apply exit_reachable|]. split; [reflexivity|].
  unfold occupies, inGrid, inRows, GRID_HEIGHT; simpl. lia.
Qed.

(** C5, amended. For every piece of the four shapes that lies within the
    grid and every direction, [canMove] answers true exactly when every
    occupied cell, translated one step in that direction, is still within
    the grid; so it answers false whenever the translated footprint has a
    cell outside. *)
Theorem canMove_iff_translation_in_grid (p : Piece) (d : MoveDirection) :
  (∀ cell, occupies p cell → inGrid cell) →
  (canMove p d = true ↔ ∀ cell, occupies p cell → inGrid (movePosition cell d)) ∧
  ((∃ cell, occupies p cell ∧ ¬ inGrid (movePosition cell d)) → canMove p d = false).
Proof.
  intros Hin.
  assert (canMove p d = true ↔
          ∀ cell, occupies p cell → inGrid (movePosition cell d)) as Hiff.
  { split.
    - intros Hcan cell Hcell. apply (canMove_keeps_rows 0 p d); [done..|].
      by apply occupies_move.
    - intros Hall. apply canMove_arith.
      destruct (occupies_corners p) as [H1 H2].
      pose proof (Hall _ H1) as Hc1. pose proof (Hall _ H2) as Hc2.
      pose proof (dimensions_range p).
      unfold inGrid, inRows, GRID_HEIGHT, GRID_WIDTH in *.
      destruct d; simpl in *; lia. }
  split; [done|].
  intros (cell & Hcell & Hout). apply not_true_iff_false.
  rewrite Hiff. intros Hall. by apply Hout, Hall.
Qed.

Lemma canMove_iff_translation_in_grid_witness :
  (∀ cell, occupies (SunSquare (Pos 1 0) SUN_ID) cell → inGrid cell) ∧
  canMove (SunSquare (Pos 1 0) SUN_ID) Up = false ∧
  (canMove (SunSquare (Pos 1 0) SUN_ID) Down = true ↔
   ∀ cell, occupies (SunSquare (Pos 1 0) SUN_ID) cell →
           inGrid (movePosition cell Down)).
Proof.
  assert (∀ cell, occupies (SunSquare (Pos 1 0) SUN_ID) cell → inGrid cell) as Hin.
  { apply within_rows_box. unfold GRID_WIDTH, GRID_HEIGHT; simpl. lia. }
  split; [exact Hin|]. split; [reflexivity|].
  apply (canMove_iff_translation_in_grid (SunSquare (Pos 1 0) SUN_ID) Down Hin).
Defined.

(** ** The invariant of the reachable boards *)

Section invariant.

Implicit Types pieces : gmap Z Piece.

Lemma disjointEntries_spec pieces :
  disjointEntries (map_to_list pieces) = true →
  ∀ k1 k2 p1 p2, k1 ≠ k2 →
    pieces !! k1 = Some p1 → pieces !! k2 = Some p2 →
    ∀ cell, occupies p1 cell → ¬ occupies p2 cell.
Proof.
  unfold disjointEntries. rewrite forallb_forall.
  intros Hall k1 k2 p1 p2 Hne H1 H2.
  apply elem_of_map_to_list, list_elem_of_In in H1, H2.
  specialize (Hall _ H1). rewrite forallb_forall in Hall.
  specialize (Hall _ H2). simpl in Hall.
  rewrite bool_decide_eq_false_2 in Hall by done. simpl in Hall.
  apply negb_true_iff in Hall. by apply intersects_false.
Qed.

Lemma initializePieces_inv : boardInv initializePieces.
Proof.
  split.
  - apply initializePieces_keyConsistent.
  - intros piece Hsun.
    assert (initializePieces !! SUN_ID = Some (SunSquare (Pos 1 0) SUN_ID))
      as Hinit by (vm_compute; reflexivity).
    rewrite Hinit in Hsun. injection Hsun as <-. by eexists.
  - apply disjointEntries_spec. vm_compute; reflexivity.
  - intros k piece Hk. apply within_rows_box.
    apply elem_of_map_to_list in Hk. revert Hk.
    vm_compute map_to_list. intros Hk.
    repeat (apply elem_of_cons in Hk as [[= -> ->]|Hk];
            [vm_compute; intuition discriminate|]).
    by apply not_elem_of_nil in Hk.
Qed.

(** The piece a move installs stays in the rows allowed to it. *)
Lemma moved_piece_rows pieces pieceID piece direction :
  boardInv pieces →
  pieces !! pieceID = Some piece →
  canMoveWithOthers pieces pieceID direction = Some true →
  ∀ cell, occupies (move piece direction) cell →
          inRows (extraRows pieceID) cell.
Proof.
  intros [Hkeys Hsun Hdisj Hrows] Hpiece Hok.
  rewrite (canMoveWithOthers_present _ _ piece) in Hok by done.
  injection Hok as Hok.
  destruct (checkWinCondition pieceID piece direction) eqn:Hwin.
  - apply checkWinCondition_true in Hwin as (-> & -> & Htl).
    destruct (Hsun _ Hpiece) as [topLeft ->]. simpl in Htl. subst topLeft.
    change (extraRows 1) with 1.
    apply within_rows_box. unfold GRID_WIDTH, GRID_HEIGHT. simpl. lia.
  - destruct (canMove piece direction) eqn:Hcan; [|done].
    apply canMove_keeps_rows; [|by apply Hrows|done].
    unfold extraRows. case_decide; lia.
Qed.

(** The piece a move installs meets no other piece. *)
Lemma moved_piece_disjoint pieces pieceID piece direction k other :
  boardInv pieces →
  pieces !! pieceID = Some piece →
  canMoveWithOthers pieces pieceID direction = Some true →
  k ≠ pieceID → pieces !! k = Some other →
  ∀ cell, occupies (move piece direction) cell → ¬ occupies other cell.
Proof.
  intros [Hkeys Hsun Hdisj Hrows] Hpiece Hok Hk Hother cell Hmoved Hcell.
  rewrite (canMoveWithOthers_present _ _ piece) in Hok by done.
  injection Hok as Hok.
  destruct (checkWinCondition pieceID piece direction) eqn:Hwin.
  - apply checkWinCondition_true in Hwin as (-> & -> & Htl).
    destruct (Hsun _ Hpiece) as [topLeft ->]. simpl in Htl. subst topLeft.
    apply (Hdisj 1 k _ _ ltac:(done) Hpiece Hother cell); [|done].
    apply (Hrows _ _ Hother) in Hcell.
    unfold extraRows in Hcell. rewrite decide_False in Hcell by done.
    unfold occupies, inRows, GRID_HEIGHT in *. simpl in *. lia.
  - destruct (canMove piece direction) eqn:Hcan; [|done].
    rewrite overlapsNoOther_spec in Hok.
    assert (intersects other (move piece direction) = false) as Hno.
    { apply (Hok k); [by apply elem_of_map_to_list|].
      by rewrite getID_move, (Hkeys _ _ Hpiece). }
    by apply (proj1 (intersects_false _ _) Hno cell).
Qed.

Lemma accepted_move_inv pieces pieceID direction result :
  boardInv pieces →
  canMoveWithOthers pieces pieceID direction = Some true →
  onMove pieces pieceID direction = Some result →
  boardInv (newPieces result).
Proof.
  intros Hinv Hok Hmove.
  destruct (pieces !! pieceID) as [piece|] eqn:Hpiece;
    [|by unfold onMove, findPiece in Hmove; rewrite Hpiece in Hmove].
  pose proof (moved_piece_rows _ _ _ _ Hinv Hpiece Hok) as Hnewrows.
  pose proof (λ k other, moved_piece_disjoint _ _ _ _ k other Hinv Hpiece Hok)
    as Hnewdisj.
  destruct Hinv as [Hkeys Hsun Hdisj Hrows].
  rewrite (onMove_insert _ _ piece) in Hmove by (by try apply Hkeys).
  injection Hmove as <-. simpl. split.
  - intros k p Hk. destruct (decide (k = pieceID)) as [->|Hne].
    + rewrite lookup_insert_eq in Hk. injection Hk as <-.
      rewrite getID_move. by apply Hkeys.
    + rewrite lookup_insert_ne in Hk by done. by apply Hkeys.
  - intros p Hp. destruct (decide (SUN_ID = pieceID)) as [<-|Hne].
    + rewrite lookup_insert_eq in Hp. injection Hp as <-.
      destruct (Hsun _ Hpiece) as [topLeft ->]. by eexists.
    + rewrite lookup_insert_ne in Hp by done. by apply Hsun.
  - intros k1 k2 p1 p2 Hne H1 H2 cell Hc1 Hc2.
    destruct (decide (k1 = pieceID)) as [->|Hk1];
      destruct (decide (k2 = pieceID)) as [->|Hk2]; [done|..].
    + rewrite lookup_insert_eq in H1. injection H1 as <-.
      rewrite lookup_insert_ne in H2 by done.
      by apply (Hnewdisj k2 p2 ltac:(done) H2 cell).
    + rewrite lookup_insert_eq in H2. injection H2 as <-.
      rewrite lookup_insert_ne in H1 by done.
      by apply (Hnewdisj k1 p1 ltac:(done) H1 cell).
    + rewrite lookup_insert_ne in H1, H2 by done.
      by apply (Hdisj k1 k2 p1 p2 Hne H1 H2 cell).
  - intros k p Hk. destruct (decide (k = pieceID)) as [->|Hne].
    + rewrite lookup_insert_eq in Hk. by injection Hk as <-.
    + rewrite lookup_insert_ne in Hk by done. by apply Hrows.
Qed.

Lemma reachable_inv pieces : reachable pieces → boardInv pieces.
Proof.
  induction 1 as [|pieces pieceID direction result _ IH Hok Hmove].
  - apply initializePieces_inv.
  - by eapply accepted_move_inv.
Qed.

End invariant.

(** C2, as stated, fails: playing the solution and then the Sun down, all
    moves accepted by the validator, gives a board on which the Sun
    occupies the cell (1, 5), below the grid. *)
Lemma sun_leaves_grid :
  ∃ pieces, reachable pieces ∧
    pieces !! SUN_ID = Some (SunSquare (Pos 1 4) SUN_ID) ∧
    occupies (SunSquare (Pos 1 4) SUN_ID) (Pos 1 5) ∧
    ¬ inGrid (Pos 1 5).
Proof.
  destruct exit_reachable as (pieces & Hreach & Hsun).
  exists pieces. split_and!; [done..| |].
  - unfold occupies; simpl. lia.
  - unfold inGrid, inRows, GRID_HEIGHT; simpl. lia.
Qed.

(** C2, amended. On every board reachable from the initial layout by
    moves the validator accepts, the occupied-cell sets of two distinct
    pieces are disjoint, every piece other than the Sun lies within the
    grid, and the Sun lies within the grid extended by one row at the
    bottom, the row the win-exit move carries it into. *)
Theorem reachable_disjoint_and_bounded (pieces : gmap Z Piece) :
  reachable pieces →
  (∀ k1 k2 p1 p2, k1 ≠ k2 →
     pieces !! k1 = Some p1 → pieces !! k2 = Some p2 →
     ∀ cell, ¬ (occupies p1 cell ∧ occupies p2 cell)) ∧
  (∀ k piece, k ≠ SUN_ID → pieces !! k = Some piece →
     ∀ cell, occupies piece cell → inGrid cell) ∧
  (∀ sun, pieces !! SUN_ID = Some sun →
     ∀ cell, occupies sun cell →
       0 ≤ pos_x cell < GRID_WIDTH ∧ 0 ≤ pos_y cell < GRID_HEIGHT + 1).
Proof.
  intros [Hkeys Hsun Hdisj Hrows]%reachable_inv. split_and!.
  - intros k1 k2 p1 p2 Hne H1 H2 cell [Hc1 Hc2].
    by apply (Hdisj k1 k2 p1 p2 Hne H1 H2 cell).
  - intros k piece Hk Hpiece cell Hcell.
    apply (Hrows _ _ Hpiece) in Hcell. unfold extraRows in Hcell.
    by rewrite decide_False in Hcell.
  - intros sun Hpiece cell Hcell.
    by apply (Hrows _ _ Hpiece) in Hcell.
Qed.

Lemma reachable_disjoint_and_bounded_witness :
  ∃ result, onMove initializePieces 3 Left = Some result ∧
    canMoveWithOthers initializePieces 3 Left = Some true ∧
    (∀ k1 k2 p1 p2, k1 ≠ k2 →
       newPieces result !! k1 = Some p1 → newPieces result !! k2 = Some p2 →
       ∀ cell, ¬ (occupies p1 cell ∧ occupies p2 cell)) ∧
    (∀ k piece, k ≠ SUN_ID → newPieces result !! k = Some piece →
       ∀ cell, occupies piece cell → inGrid cell) ∧
    (∀ sun, newPieces result !! SUN_ID = Some sun →
       ∀ cell, occupies sun cell →
         0 ≤ pos_x cell < GRID_WIDTH ∧ 0 ≤ pos_y cell < GRID_HEIGHT + 1).
Proof.
  eexists. split; [vm_compute; reflexivity|].
  split; [vm_compute; reflexivity|].
  apply reachable_disjoint_and_bounded.
  eapply (reachable_move initializePieces 3 Left);
    [apply reachable_init|vm_compute; reflexivity..].
Defined.


(** ** Further properties of the piece model *)

Section more_pieces.

Lemma elem_of_cellsOf p cell : cell ∈ cellsOf p ↔ occupies p cell.
Proof.
  unfold cellsOf, occupies. rewrite list_elem_of_bind. split.
  - intros (i & Hcell & Hi). apply list_elem_of_bind in Hcell as (j & Hcell & Hj).
    apply list_elem_of_singleton in Hcell as ->.
    apply elem_of_seqZ in Hi, Hj. simpl. lia.
  - destruct cell as [cx cy]. simpl. intros [Hx Hy].
    exists (cx - pos_x (getTopLeft p)). rewrite elem_of_seqZ. split; [|lia].
    apply list_elem_of_bind. exists (cy - pos_y (getTopLeft p)).
    rewrite elem_of_seqZ, list_elem_of_singleton. split; [|lia].
    f_equal; lia.
Qed.

Lemma NoDup_cellsOf p : NoDup (cellsOf p).
Proof.
  destruct p as [[[x y] id]|[x y] id|[x y] id|[x y] id]; unfold cellsOf; simpl;
    repeat (apply NoDup_cons; split); try apply NoDup_nil_2;
    rewrite ?elem_of_cons, ?elem_of_nil;
    intros Hdup; repeat destruct Hdup as [Hdup|Hdup]; try done;
    injection Hdup; lia.
Qed.

Lemma length_cellsOf p :
  length (cellsOf p)
  = Z.to_nat (width (getDimensions p) * height (getDimensions p)).
Proof. by destruct p. Qed.

Lemma getCoveredArea_cellsOf p :
  getCoveredArea p = list_to_set (JSON_stringify <$> cellsOf p).
Proof.
  apply set_eq. intros s.
  rewrite elem_of_getCoveredArea, elem_of_list_to_set, list_elem_of_fmap.
  split.
  - intros (cell & Hcell & ->). exists cell. by rewrite elem_of_cellsOf.
  - intros (cell & -> & Hcell). exists cell. by rewrite <-elem_of_cellsOf.
Qed.

Lemma intersects_boxes p q : intersects p q = true ↔ boxesOverlap p q.
Proof.
  rewrite intersects_spec. unfold boxesOverlap, occupies. split.
  - intros (cell & Hp & Hq). lia.
  - intros Hbox.
    exists (Pos (pos_x (getTopLeft p) `max` pos_x (getTopLeft q))
                (pos_y (getTopLeft p) `max` pos_y (getTopLeft q))).
    pose proof (dimensions_range p). pose proof (dimensions_range q).
    simpl. lia.
Qed.

Lemma move_back p d : move (move p d) (opposite d) = p.
Proof.
  destruct p as [[[x y] id]|[x y] id|[x y] id|[x y] id], d;
    unfold move, opposite, movePosition, getTopLeft, squares; simpl;
    repeat f_equal; lia.
Qed.

End more_pieces.

(** ** Further properties of the validator and the driver *)

Section more_board.

Implicit Types pieces : gmap Z Piece.

Lemma controlsOf_present pieces id piece :
  pieces !! id = Some piece →
  ∃ arrows, controlsOf pieces id = Some arrows ∧
    ∀ direction outcome, (direction, outcome) ∈ arrows ↔
      canMoveWithOthers pieces id direction = Some true ∧
      outcome = onMove pieces id direction.
Proof.
  intros Hpiece. unfold controlsOf, PieceControls, PieceControlArrow.
  assert (∀ d, ∃ shown, canMoveWithOthers pieces id d = Some shown) as Htotal.
  { intros d. eexists. by apply canMoveWithOthers_present. }
  destruct (Htotal Up) as [bu Hu], (Htotal Down) as [bd Hd],
    (Htotal Left) as [bl Hl], (Htotal Right) as [br Hr].
  rewrite Hu, Hd, Hl, Hr. simpl. eexists. split; [done|].
  intros direction outcome. rewrite !elem_of_app, !elem_of_arrow.
  destruct direction; rewrite ?Hu, ?Hd, ?Hl, ?Hr;
    intuition (discriminate || congruence).
Qed.

Lemma controlsOf_absent pieces id :
  pieces !! id = None → controlsOf pieces id = None.
Proof.
  intros Hnone. unfold controlsOf, PieceControls, PieceControlArrow,
    canMoveWithOthers, findPiece. by rewrite Hnone.
Qed.

(** A piece inside the grid can always step back to where it was. *)
Lemma canMove_back p d :
  (∀ cell, occupies p cell → inGrid cell) →
  canMove (move p d) (opposite d) = true.
Proof.
  intros Hin. apply within_rows_box in Hin. apply canMove_arith.
  rewrite getTopLeft_move, getDimensions_move.
  pose proof (dimensions_range p).
  unfold GRID_HEIGHT, GRID_WIDTH in *. destruct d; simpl; lia.
Qed.

Lemma canMove_true_in_grid p d :
  (∀ cell, occupies p cell → inGrid cell) →
  (canMove p d = true ↔ ∀ cell, occupies (move p d) cell → inGrid cell).
Proof.
  intros Hin. split.
  - intros Hcan. by apply (canMove_keeps_rows 0).
  - intros Hall. apply canMove_arith.
    apply within_rows_box in Hin, Hall.
    rewrite getTopLeft_move, getDimensions_move in Hall.
    pose proof (dimensions_range p).
    unfold GRID_HEIGHT, GRID_WIDTH in *. destruct d; simpl in *; lia.
Qed.

End more_board.

(** X6. The only failure of the engine is the missing piece: the
    validator, the driver and the controls of a piece throw exactly when
    the id is not a key of the board, for every direction. *)
Theorem throws_iff_piece_missing (pieces : gmap Z Piece) (id : Z)
    (direction : MoveDirection) :
  (canMoveWithOthers pieces id direction = None ↔ pieces !! id = None) ∧
  (onMove pieces id direction = None ↔ pieces !! id = None) ∧
  (controlsOf pieces id = None ↔ pieces !! id = None).
Proof.
  destruct (pieces !! id) as [piece|] eqn:Hpiece.
  - rewrite (canMoveWithOthers_present _ _ piece),
      (onMove_present _ _ piece) by done.
    destruct (controlsOf_present _ _ _ Hpiece) as (arrows & -> & _).
    by split_and!.
  - rewrite controlsOf_absent by done.
    unfold canMoveWithOthers, onMove, findPiece. rewrite Hpiece. by split_and!.
Qed.

(** X7. On any board, key-consistent or not, [onMove] keeps the set of
    keys and changes no entry but the one under the id the moved piece
    reports: that entry, if there is one, becomes the moved piece, and if
    there is none the board comes back unchanged. *)
Theorem onMove_changes_at_most_one_entry (pieces : gmap Z Piece) (id : Z)
    (piece : Piece) (direction : MoveDirection) (result : MoveResult) :
  pieces !! id = Some piece →
  onMove pieces id direction = Some result →
  dom (newPieces result) = dom pieces ∧
  (∀ k, k ≠ getID piece → newPieces result !! k = pieces !! k) ∧
  (is_Some (pieces !! getID piece) →
     newPieces result !! getID piece = Some (move piece direction)) ∧
  (pieces !! getID piece = None → newPieces result = pieces).
Proof.
  intros Hpiece Hmove. rewrite (onMove_present _ _ piece) in Hmove by done.
  injection Hmove as <-. simpl. split_and!.
  - apply set_eq. intros k. rewrite !elem_of_dom, updatePieces_lookup.
    case_decide; [|done]. by rewrite fmap_is_Some.
  - intros k Hk. rewrite updatePieces_lookup. by rewrite decide_False.
  - intros [old Hold]. rewrite updatePieces_lookup, decide_True by done.
    by rewrite Hold.
  - apply updatePieces_absent.
Qed.

Lemma onMove_changes_at_most_one_entry_witness :
  ∃ result,
    onMove {[ 7 := ASquare (new_Square (Pos 0 0) 3) ]} 7 Right = Some result ∧
    newPieces result = {[ 7 := ASquare (new_Square (Pos 0 0) 3) ]}.
Proof.
  eexists. split; [vm_compute; reflexivity|].
  apply (onMove_changes_at_most_one_entry
           {[ 7 := ASquare (new_Square (Pos 0 0) 3) ]} 7
           (ASquare (new_Square (Pos 0 0) 3)) Right);
    vm_compute; reflexivity.
Defined.

(** X8. Pieces neither appear, disappear nor change shape: on every board
    of the game each key holds a piece with the id and the dimensions of
    the initial piece under that key; the keys are 0 to 9, and the null
    selection -1 is the key of no piece. *)
Theorem pieces_keep_id_and_shape (pieces : gmap Z Piece) :
  driverState pieces →
  (∀ k, (λ piece, (getID piece, getDimensions piece)) <$> pieces !! k =
        (λ piece, (getID piece, getDimensions piece)) <$> initializePieces !! k) ∧
  dom pieces = list_to_set (seqZ 0 10) ∧
  pieces !! (-1) = None.
Proof.
  intros Hstate.
  assert (∀ k, (λ piece, (getID piece, getDimensions piece)) <$> pieces !! k =
    (λ piece, (getID piece, getDimensions piece)) <$> initializePieces !! k)
    as Hsame.
  { induction Hstate as [|pieces pieceID direction result Hstate IH Hmove];
      [done|].
    pose proof (driverState_keyConsistent _ Hstate) as Hkeys.
    unfold onMove, findPiece in Hmove.
    destruct (pieces !! pieceID) as [piece|] eqn:Hpiece; [|done].
    simpl in Hmove. injection Hmove as <-. simpl.
    rewrite getID_move, (Hkeys _ _ Hpiece).
    erewrite updatePieces_insert by done.
    intros k. destruct (decide (k = pieceID)) as [->|Hne].
    - rewrite lookup_insert_eq, <-IH, Hpiece. simpl.
      by rewrite getID_move, getDimensions_move.
    - by rewrite lookup_insert_ne. }
  assert (dom pieces = dom initializePieces) as Hdom.
  { apply set_eq. intros k. rewrite !elem_of_dom.
    rewrite <-(fmap_is_Some (λ piece, (getID piece, getDimensions piece))
                 (pieces !! k)), Hsame.
    apply fmap_is_Some. }
  split_and!; [done| |].
  - rewrite Hdom. vm_compute; reflexivity.
  - apply not_elem_of_dom. rewrite Hdom. apply not_elem_of_dom.
    vm_compute; reflexivity.
Qed.

Lemma pieces_keep_id_and_shape_witness :
  ∃ result, onMove initializePieces 1 Up = Some result ∧
    dom (newPieces result) = list_to_set (seqZ 0 10) ∧
    newPieces result !! (-1) = None.
Proof.
  eexists. split; [vm_compute; reflexivity|].
  apply (pieces_keep_id_and_shape _
           (driver_move initializePieces 1 Up _ driver_init eq_refl)).
Defined.

(** X9. Moves can be taken back: on a reachable board, after [onMove]
    has moved a piece that was inside the grid (by an accepted move or
    any other), the validator accepts the opposite move of that piece and
    [onMove] then restores the board exactly. *)
Theorem move_can_be_undone (pieces : gmap Z Piece) (id : Z) (piece : Piece)
    (direction : MoveDirection) (result : MoveResult) :
  reachable pieces →
  pieces !! id = Some piece →
  (∀ cell, occupies piece cell → inGrid cell) →
  onMove pieces id direction = Some result →
  canMoveWithOthers (newPieces result) id (opposite direction) = Some true ∧
  ∃ back, onMove (newPieces result) id (opposite direction) = Some back ∧
    newPieces back = pieces.
Proof.
  intros [Hkeys _ Hdisj _]%reachable_inv Hpiece Hin Hmove.
  pose proof (Hkeys _ _ Hpiece) as Hid.
  rewrite (onMove_insert _ _ piece) in Hmove by done.
  injection Hmove as <-. simpl.
  assert ((<[id := move piece direction]> pieces) !! id
          = Some (move piece direction)) as Hmoved
    by apply lookup_insert_eq.
  split.
  - rewrite (canMoveWithOthers_present _ _ _ _ Hmoved).
    destruct (checkWinCondition _ _ _); [done|].
    rewrite canMove_back by done. f_equal.
    apply overlapsNoOther_spec. intros k other Hk Hne.
    rewrite move_back in *. rewrite Hid in Hne.
    apply elem_of_map_to_list in Hk. rewrite lookup_insert_ne in Hk by done.
    apply intersects_false. by apply (Hdisj k id).
  - eexists. split.
    + apply onMove_insert; [done|]. by rewrite getID_move.
    + simpl. rewrite move_back, insert_insert_eq. by apply insert_id.
Qed.

Lemma move_can_be_undone_witness :
  ∃ result, onMove initializePieces 3 Left = Some result ∧
    canMoveWithOthers initializePieces 3 Left = Some true ∧
    canMoveWithOthers (newPieces result) 3 Right = Some true ∧
    ∃ back, onMove (newPieces result) 3 Right = Some back ∧
      newPieces back = initializePieces.
Proof.
  eexists. split; [vm_compute; reflexivity|].
  split; [vm_compute; reflexivity|].
  apply (move_can_be_undone initializePieces 3 (HorizontalRect (Pos 1 2) 3) Left).
  - apply reachable_init.
  - vm_compute; reflexivity.
  - apply within_rows_box. unfold GRID_WIDTH, GRID_HEIGHT; simpl. lia.
  - vm_compute; reflexivity.
Defined.

(** X10. The win alert goes with the exit move only: [onMove] raises it
    exactly when the id is the Sun's, the direction is down and the piece
    stored under that id has its top-left corner at (1, 3); and every move
    that raises it is a move the validator accepts. *)
Theorem alert_iff_exit_move (pieces : gmap Z Piece) (id : Z)
    (direction : MoveDirection) (result : MoveResult) :
  onMove pieces id direction = Some result →
  (alerted result = true ↔
   id = SUN_ID ∧ direction = Down ∧
   ∃ piece, pieces !! id = Some piece ∧ getTopLeft piece = Pos 1 3) ∧
  (alerted result = true →
   canMoveWithOthers pieces id direction = Some true).
Proof.
  intros Hmove.
  destruct (pieces !! id) as [piece|] eqn:Hpiece;
    [|by unfold onMove, findPiece in Hmove; rewrite Hpiece in Hmove].
  rewrite (onMove_present _ _ piece) in Hmove by done.
  injection Hmove as <-. simpl. split.
  - rewrite checkWinCondition_true. split.
    + intros (-> & -> & Htl). split_and!; [done..|]. by exists piece.
    + intros (-> & -> & piece' & [= <-] & Htl). done.
  - intros Hwin. rewrite (canMoveWithOthers_present _ _ piece) by done.
    by rewrite Hwin.
Qed.

Lemma alert_iff_exit_move_witness :
  ∃ result, onMove initializePieces 1 Down = Some result ∧
    alerted result = false ∧
    (alerted result = true → canMoveWithOthers initializePieces 1 Down = Some true).
Proof.
  eexists. split; [vm_compute; reflexivity|]. split; [reflexivity|].
  apply (alert_iff_exit_move initializePieces 1 Down). vm_compute; reflexivity.
Defined.

(** X11. The puzzle can be won: a sequence of moves, each accepted by the
    validator, leads from the initial layout to a board on which the
    validator accepts the Sun moving down and [onMove] raises the win
    alert for it. *)
Theorem puzzle_can_be_won :
  ∃ moves pieces result,
    play moves initializePieces = Some pieces ∧
    reachable pieces ∧
    canMoveWithOthers pieces SUN_ID Down = Some true ∧
    onMove pieces SUN_ID Down = Some result ∧
    alerted result = true.
Proof.
  assert (play sunToExit initializePieces ≫= (.!! SUN_ID)
          = Some (SunSquare (Pos 1 3) SUN_ID)) as Hsun
    by (vm_compute; reflexivity).
  destruct (play sunToExit initializePieces) as [pieces|] eqn:Hplay;
    [|discriminate Hsun].
  simpl in Hsun.
  exists sunToExit, pieces. eexists. split_and!.
  - done.
  - eapply play_reachable; [apply reachable_init|exact Hplay].
  - by rewrite (canMoveWithOthers_present _ _ _ _ Hsun).
  - by apply onMove_present.
  - done.
Qed.

(** X12. For a piece inside the grid and a move that is not the win
    exit, the validator accepts exactly when every cell of the moved
    piece is inside the grid and occupied by no piece stored under a key
    other than the moved piece's id. *)
Theorem accepted_iff_destination_free (pieces : gmap Z Piece) (id : Z)
    (piece : Piece) (direction : MoveDirection) :
  pieces !! id = Some piece →
  (∀ cell, occupies piece cell → inGrid cell) →
  checkWinCondition id piece direction = false →
  (canMoveWithOthers pieces id direction = Some true ↔
   ∀ cell, occupies (move piece direction) cell →
     inGrid cell ∧
     ∀ k other, k ≠ getID piece → pieces !! k = Some other →
       ¬ occupies other cell).
Proof.
  intros Hpiece Hin Hwin.
  rewrite (canMoveWithOthers_present _ _ piece), Hwin by done. split.
  - intros Hok cell Hcell.
    destruct (canMove piece direction) eqn:Hcan; [|done].
    injection Hok as Hok. rewrite overlapsNoOther_spec in Hok. split.
    + by apply (canMove_true_in_grid piece direction Hin).
    + intros k other Hk Hother Hocc.
      assert (intersects other (move piece direction) = false) as Hno.
      { apply (Hok k); [by apply elem_of_map_to_list|by rewrite getID_move]. }
      by apply (proj1 (intersects_false _ _) Hno cell).
  - intros Hfree.
    assert (canMove piece direction = true) as ->.
    { apply (canMove_true_in_grid piece direction Hin).
      intros cell Hcell. by apply Hfree. }
    f_equal. apply overlapsNoOther_spec. intros k other Hk Hne.
    rewrite getID_move in Hne. apply elem_of_map_to_list in Hk.
    apply intersects_false. intros cell Hocc Hcell.
    by apply (proj2 (Hfree cell Hcell) k other).
Qed.

Lemma accepted_iff_destination_free_witness :
  canMoveWithOthers initializePieces 3 Left = Some true ∧
  (canMoveWithOthers initializePieces 3 Left = Some true ↔
   ∀ cell, occupies (move (HorizontalRect (Pos 1 2) 3) Left) cell →
     inGrid cell ∧
     ∀ k other, k ≠ 3 → initializePieces !! k = Some other →
       ¬ occupies other cell).
Proof.
  split; [vm_compute; reflexivity|].
  apply (accepted_iff_destination_free initializePieces 3
           (HorizontalRect (Pos 1 2) 3) Left).
  - vm_compute; reflexivity.
  - apply within_rows_box. unfold GRID_WIDTH, GRID_HEIGHT; simpl. lia.
  - reflexivity.
Defined.

(** ** The render and the handlers of [App] *)

Section app.

Implicit Types pieces : gmap Z Piece.

Lemma PuzzlePiece_present pieces id piece selected :
  pieces !! id = Some piece →
  ∃ arrows, controlsOf pieces id = Some arrows ∧
    PuzzlePiece piece selected
      (λ direction, canMoveWithOthers pieces id direction)
      (λ direction, onMove pieces id direction)
    = Some {| view_style := {| style_width := 120 * width (getDimensions piece);
                               style_height := 120 * height (getDimensions piece);
                               style_left := 120 * pos_x (getTopLeft piece);
                               style_top := 120 * pos_y (getTopLeft piece) |};
              view_label := getID piece;
              view_controls := if selected then Some arrows else None |}.
Proof.
  intros Hpiece.
  destruct (controlsOf_present _ _ _ Hpiece) as (arrows & Hctl & _).
  exists arrows. split; [done|]. unfold PuzzlePiece.
  destruct selected; simpl; [|done].
  unfold controlsOf in Hctl. by rewrite Hctl.
Qed.

(** What the render holds for each id: a view exactly for the keys of the
    board, built from the piece stored there. *)
Lemma App_render_views pieces selected views id view :
  App_render pieces selected = Some views →
  (id, view) ∈ views ↔
  ∃ piece, pieces !! id = Some piece ∧
    PuzzlePiece piece (bool_decide (id = selected))
      (λ direction, canMoveWithOthers pieces id direction)
      (λ direction, onMove pieces id direction) = Some view.
Proof.
  unfold App_render. intros Hrender%mapM_Some. split.
  - intros Hin. apply list_elem_of_lookup in Hin as [i Hi].
    destruct (Forall2_lookup_r _ _ _ _ _ Hrender Hi) as ([k piece] & Hk & Hview).
    simpl in Hview.
    destruct (PuzzlePiece _ _ _ _) as [view'|] eqn:Hpp; [|done].
    simpl in Hview. injection Hview as -> ->.
    exists piece. split; [|done].
    apply elem_of_map_to_list, list_elem_of_lookup. by exists i.
  - intros (piece & Hpiece & Hpp).
    apply elem_of_map_to_list, list_elem_of_lookup in Hpiece as [i Hi].
    destruct (Forall2_lookup_l _ _ _ _ _ Hrender Hi) as (entry & Hentry & Hview).
    simpl in Hview. rewrite Hpp in Hview. simpl in Hview.
    injection Hview as <-. apply list_elem_of_lookup. by exists i.
Qed.

Lemma App_render_total pieces selected : is_Some (App_render pieces selected).
Proof.
  unfold App_render. apply mapM_is_Some, Forall_forall.
  intros [id piece] Hentry%elem_of_map_to_list. simpl.
  destruct (PuzzlePiece_present pieces id piece (bool_decide (id = selected)))
    as (arrows & _ & ->); done.
Qed.

(** An arrow the render shows: its piece is the selected one, the
    validator accepts its direction, and its click is [onMove]. *)
Lemma App_render_arrow pieces selected views id view arrows direction outcome :
  App_render pieces selected = Some views →
  (id, view) ∈ views →
  view_controls view = Some arrows →
  (direction, outcome) ∈ arrows →
  id = selected ∧
  canMoveWithOthers pieces id direction = Some true ∧
  outcome = onMove pieces id direction ∧ is_Some outcome.
Proof.
  intros Hrender Hin Hctl Harrow.
  apply (App_render_views _ _ _ _ _ Hrender) in Hin as (piece & Hpiece & Hpp).
  destruct (PuzzlePiece_present pieces id piece (bool_decide (id = selected))
              Hpiece) as (arrows' & Hctl' & Hpp').
  rewrite Hpp' in Hpp. injection Hpp as <-. simpl in Hctl.
  case_bool_decide as Hsel; [|done]. injection Hctl as ->.
  destruct (controlsOf_present _ _ _ Hpiece) as (arrows'' & Hctl'' & Harrows).
  rewrite Hctl' in Hctl''. injection Hctl'' as <-.
  apply Harrows in Harrow as [Hok ->]. split_and!; [done..|].
  rewrite (onMove_present _ _ piece) by done. by eexists.
Qed.

Lemma AppStep_reachable st st' :
  reachable (app_pieces st) → AppStep st st' → reachable (app_pieces st').
Proof.
  intros Hreach Hstep.
  destruct Hstep as [st views id view Hrender Hin
                    |st views id view arrows direction result
                       Hrender Hin Hctl Harrow
                    |st]; simpl.
  - done.
  - destruct (App_render_arrow _ _ _ _ _ _ _ _ Hrender Hin Hctl Harrow)
      as (_ & Hok & Hmove & _).
    by eapply reachable_move.
  - apply reachable_init.
Qed.

End app.

(** X13. The render never throws, whatever the board and the selection:
    it shows one box per key of the board, labelled with the id the piece
    reports, with controls on the selected piece and on no other; every
    arrow shown is one the validator accepts, and clicking it never
    throws.  So the missing-piece error cannot be reached from the user
    interface. *)
Theorem render_never_throws (pieces : gmap Z Piece) (selected : Z) :
  ∃ views, App_render pieces selected = Some views ∧
    (∀ id, (∃ view, (id, view) ∈ views) ↔ is_Some (pieces !! id)) ∧
    (∀ id view, (id, view) ∈ views →
       (is_Some (view_controls view) ↔ id = selected) ∧
       (∃ piece, pieces !! id = Some piece ∧ view_label view = getID piece) ∧
       ∀ arrows direction outcome,
         view_controls view = Some arrows → (direction, outcome) ∈ arrows →
         canMoveWithOthers pieces id direction = Some true ∧
         outcome = onMove pieces id direction ∧ is_Some outcome).
Proof.
  destruct (App_render_total pieces selected) as [views Hrender].
  exists views. split_and!; [done| |].
  - intros id. split.
    + intros [view Hin].
      apply (App_render_views _ _ _ _ _ Hrender) in Hin as (piece & -> & _).
      by eexists.
    + intros [piece Hpiece].
      destruct (PuzzlePiece_present pieces id piece (bool_decide (id = selected))
                  Hpiece) as (arrows & _ & Hpp).
      eexists. apply (App_render_views _ _ _ _ _ Hrender). by exists piece.
  - intros id view Hin. split_and!.
    + apply (App_render_views _ _ _ _ _ Hrender) in Hin as (piece & Hpiece & Hpp).
      destruct (PuzzlePiece_present pieces id piece (bool_decide (id = selected))
                  Hpiece) as (arrows & _ & Hpp').
      rewrite Hpp' in Hpp. injection Hpp as <-. simpl.
      case_bool_decide; split; done.
    + apply (App_render_views _ _ _ _ _ Hrender) in Hin as (piece & Hpiece & Hpp).
      destruct (PuzzlePiece_present pieces id piece (bool_decide (id = selected))
                  Hpiece) as (arrows & _ & Hpp').
      rewrite Hpp' in Hpp. injection Hpp as <-. by exists piece.
    + intros arrows direction outcome Hctl Harrow.
      by destruct (App_render_arrow _ _ _ _ _ _ _ _ Hrender Hin Hctl Harrow)
        as (_ & ? & ? & ?).
Qed.

(** X14. On a board reachable by accepted moves the rendered boxes of two
    different pieces share no pixel, and the box of every piece other
    than the Sun lies within the 4 x 5 cells of 120 pixels of the board. *)
Theorem rendered_boxes_do_not_overlap (pieces : gmap Z Piece) (selected : Z)
    (views : list (Z * PuzzlePieceView)) :
  reachable pieces →
  App_render pieces selected = Some views →
  (∀ id1 view1 id2 view2, id1 ≠ id2 →
     (id1, view1) ∈ views → (id2, view2) ∈ views →
     ∀ px py, ¬ (inBox (view_style view1) px py ∧
                 inBox (view_style view2) px py)) ∧
  (∀ id view, id ≠ SUN_ID → (id, view) ∈ views →
     ∀ px py, inBox (view_style view) px py →
       0 ≤ px < 120 * GRID_WIDTH ∧ 0 ≤ py < 120 * GRID_HEIGHT).
Proof.
  intros [_ _ Hdisj Hrows]%reachable_inv Hrender.
  assert (∀ id view, (id, view) ∈ views →
    ∃ piece, pieces !! id = Some piece ∧
      view_style view =
        {| style_width := 120 * width (getDimensions piece);
           style_height := 120 * height (getDimensions piece);
           style_left := 120 * pos_x (getTopLeft piece);
           style_top := 120 * pos_y (getTopLeft piece) |}) as Hstyle.
  { intros id view Hin.
    apply (App_render_views _ _ _ _ _ Hrender) in Hin as (piece & Hpiece & Hpp).
    destruct (PuzzlePiece_present pieces id piece (bool_decide (id = selected))
                Hpiece) as (arrows & _ & Hpp').
    rewrite Hpp' in Hpp. injection Hpp as <-. by exists piece. }
  split.
  - intros id1 view1 id2 view2 Hne Hin1 Hin2 px py [Hb1 Hb2].
    destruct (Hstyle _ _ Hin1) as (p1 & Hp1 & Hs1).
    destruct (Hstyle _ _ Hin2) as (p2 & Hp2 & Hs2).
    rewrite Hs1 in Hb1. rewrite Hs2 in Hb2. unfold inBox in *. simpl in *.
    assert (boxesOverlap p1 p2) as Hbox by (unfold boxesOverlap; lia).
    apply intersects_boxes, intersects_spec in Hbox as (cell & Hc1 & Hc2).
    by apply (Hdisj id1 id2 p1 p2 Hne Hp1 Hp2 cell).
  - intros id view Hne Hin px py Hb.
    destruct (Hstyle _ _ Hin) as (piece & Hpiece & Hs).
    rewrite Hs in Hb. unfold inBox in Hb. simpl in Hb.
    pose proof (Hrows _ _ Hpiece) as Hin_rows. apply within_rows_box in Hin_rows.
    unfold extraRows in Hin_rows. rewrite decide_False in Hin_rows by done.
    unfold GRID_WIDTH, GRID_HEIGHT in *. lia.
Qed.

Lemma rendered_boxes_do_not_overlap_witness :
  ∃ views, App_render initializePieces (-1) = Some views ∧
    (∀ id1 view1 id2 view2, id1 ≠ id2 →
       (id1, view1) ∈ views → (id2, view2) ∈ views →
       ∀ px py, ¬ (inBox (view_style view1) px py ∧
                   inBox (view_style view2) px py)) ∧
    (∀ id view, id ≠ SUN_ID → (id, view) ∈ views →
       ∀ px py, inBox (view_style view) px py →
         0 ≤ px < 120 * GRID_WIDTH ∧ 0 ≤ py < 120 * GRID_HEIGHT).
Proof.
  eexists. split; [vm_compute; reflexivity|].
  apply (rendered_boxes_do_not_overlap initializePieces (-1));
    [apply reachable_init|vm_compute; reflexivity].
Defined.

(** X15. The boards the application can show are exactly the boards
    reachable by accepted moves: whatever pieces are clicked, arrows
    pressed and resets done, the handlers only ever apply moves the
    validator accepts on the board at hand; and every board reachable by
    accepted moves is shown after some sequence of clicks.  The selection
    is always the null value -1 or the key of a piece. *)
Theorem App_shows_reachable_boards :
  (∀ st, rtc AppStep App_initial st →
     reachable (app_pieces st) ∧
     (app_selected st = -1 ∨ is_Some (app_pieces st !! app_selected st))) ∧
  (∀ pieces, reachable pieces →
     ∃ st, rtc AppStep App_initial st ∧ app_pieces st = pieces).
Proof.
  split.
  - apply (rtc_ind_r (λ st, reachable (app_pieces st) ∧
        (app_selected st = -1 ∨ is_Some (app_pieces st !! app_selected st)))).
    { split; [apply reachable_init|by left]. }
    intros st st' Hsteps Hstep [IHreach IHsel].
    split; [by eapply AppStep_reachable|].
    pose proof (reachable_driverState _ IHreach) as Hstate.
    destruct Hstep as [st views id view Hrender Hin
                      |st views id view arrows direction result
                         Hrender Hin Hctl Harrow
                      |st]; simpl.
    + right. apply (App_render_views _ _ _ _ _ Hrender) in Hin
        as (piece & -> & _). by eexists.
    + destruct IHsel as [Hnull|Hsel]; [by left|right].
      destruct (App_render_arrow _ _ _ _ _ _ _ _ Hrender Hin Hctl Harrow)
        as (-> & _ & Hmove & _).
      symmetry in Hmove. apply elem_of_dom.
      apply elem_of_dom in Hsel.
      assert (dom (newPieces result) = dom (app_pieces st)) as ->; [|done].
      unfold onMove, findPiece in Hmove.
      destruct (app_pieces st !! app_selected st) as [piece|] eqn:Hpiece;
        [|done].
      simpl in Hmove. injection Hmove as <-. simpl.
      apply set_eq. intros k. rewrite !elem_of_dom, updatePieces_lookup.
      case_decide; [|done]. by rewrite fmap_is_Some.
    + by left.
  - intros pieces Hreach.
    induction Hreach as [|pieces pieceID direction result _ [st [Hsteps <-]]
                           Hok Hmove].
    { exists App_initial. split; [apply rtc_refl|done]. }
    destruct (app_pieces st !! pieceID) as [piece|] eqn:Hpiece;
      [|by unfold onMove, findPiece in Hmove; rewrite Hpiece in Hmove].
    (* select the piece, then press its arrow *)
    destruct (App_render_total (app_pieces st) (app_selected st))
      as [views Hrender].
    destruct (PuzzlePiece_present (app_pieces st) pieceID piece
                (bool_decide (pieceID = app_selected st)) Hpiece)
      as (arrows0 & _ & Hpp0).
    destruct (App_render_total (app_pieces st) pieceID) as [views' Hrender'].
    destruct (PuzzlePiece_present (app_pieces st) pieceID piece
                (bool_decide (pieceID = pieceID)) Hpiece)
      as (arrows & Hctl & Hpp).
    rewrite bool_decide_eq_true_2 in Hpp by done.
    destruct (controlsOf_present _ _ _ Hpiece) as (arrows' & Hctl' & Harrows).
    rewrite Hctl in Hctl'. injection Hctl' as <-.
    exists {| app_pieces := newPieces result; app_selected := pieceID |}.
    split; [|done].
    eapply rtc_r; [eapply rtc_r; [exact Hsteps|]|].
    + eapply (step_select st views pieceID); [done|].
      apply (App_render_views _ _ _ _ _ Hrender). by exists piece.
    + eapply (step_arrow {| app_pieces := app_pieces st;
                            app_selected := pieceID |}
                views' pieceID _ arrows direction result); simpl.
      * done.
      * apply (App_render_views _ _ _ _ _ Hrender'). exists piece.
        split; [done|]. by rewrite bool_decide_eq_true_2.
      * done.
      * apply Harrows. by split.
Qed.

Lemma App_shows_reachable_boards_witness :
  reachable (app_pieces App_initial) ∧
  (app_selected App_initial = -1 ∨
   is_Some (app_pieces App_initial !! app_selected App_initial)).
Proof.
  apply (proj1 App_shows_reachable_boards App_initial). apply rtc_refl.
Defined.

(** ** Exact and rounded arithmetic agree on safe integers *)

Section double.

Arguments roundDouble : simpl never.
Arguments Double.add : simpl never.
Arguments Double.sub : simpl never.

Lemma roundDouble_exact z : Z.abs z ≤ 2 ^ 53 → roundDouble z = z.
Proof.
  intros Hz. unfold roundDouble. case_bool_decide as Hlt; [done|].
  assert (z = 2 ^ 53 ∨ z = - 2 ^ 53) as [->| ->] by lia;
    vm_compute; reflexivity.
Qed.

Lemma Double_add_exact a b : safeInteger a → 0 ≤ b ≤ 1 → Double.add a b = a + b.
Proof.
  unfold safeInteger, Double.add. intros Ha Hb. apply roundDouble_exact. lia.
Qed.

Lemma Double_sub_exact a : safeInteger (a - 1) → Double.sub a 1 = a - 1.
Proof.
  unfold safeInteger, Double.sub. intros Ha. apply roundDouble_exact. lia.
Qed.

Lemma Double_add_1_exact a : safeInteger (a + 1) → Double.add a 1 = a + 1.
Proof.
  unfold safeInteger, Double.add. intros Ha. apply roundDouble_exact. lia.
Qed.

Lemma Double_getTopLeft p : Double.getTopLeft p = getTopLeft p.
Proof. by destruct p. Qed.

Lemma Double_squares p : safePiece p → Double.squares p = squares p.
Proof.
  destruct p as [[[x y] id]|[x y] id|[x y] id|[x y] id]; intros [Hx Hy];
    cbn [Double.squares squares getTopLeft Square_topLeft pos_x pos_y] in *;
    rewrite ?Double_add_exact by (assumption || lia); reflexivity.
Qed.

Lemma Double_canMove p d : safePiece p → Double.canMove p d = canMove p d.
Proof.
  intros Hsafe. unfold Double.canMove, canMove.
  by rewrite Double_squares.
Qed.

Lemma Double_move p d : safePiece (move p d) → Double.move p d = move p d.
Proof.
  unfold safePiece, safePosition. rewrite getTopLeft_move.
  destruct p as [[[x y] id]|[x y] id|[x y] id|[x y] id], d; intros [Hx Hy];
    cbn [Double.move move Double.movePosition movePosition Double.getTopLeft
         getTopLeft Double.squares squares Square_topLeft Square_id
         pos_x pos_y] in *;
    rewrite ?Double_sub_exact, ?Double_add_1_exact by assumption;
    reflexivity.
Qed.

Lemma Double_getCoveredArea p :
  safePiece p → Double.getCoveredArea p = getCoveredArea p.
Proof.
  unfold Double.getCoveredArea, getCoveredArea. rewrite Double_getTopLeft.
  intros [Hx Hy]. generalize dependent (getTopLeft p). intros [x y] Hx Hy.
  pose proof (dimensions_range p) as [Hw Hh].
  generalize dependent (getDimensions p). intros [h w] Hw Hh.
  cbn [pos_x pos_y width height] in *.
  assert (w = 1 ∨ w = 2) as [->| ->] by lia;
    assert (h = 1 ∨ h = 2) as [->| ->] by lia;
    cbn [seqZ foldl];
    change (seqZ 0 1) with [0]; change (seqZ 0 2) with [0; 1]; cbn [foldl];
    rewrite !Double_add_exact by (assumption || lia); reflexivity.
Qed.

Lemma Double_intersects p q :
  safePiece p → safePiece q → Double.intersects p q = intersects p q.
Proof.
  intros Hp Hq. unfold Double.intersects, intersects.
  rewrite (Double_getCoveredArea p Hp), (Double_getCoveredArea q Hq).
  reflexivity.
Qed.

End double.

(** C6, as stated, fails beyond the safe integers: the second cell of a
    horizontal rectangle at x = 2^53 + 2 is computed as 2^53 + 4, so the
    rectangle is found to intersect the square at 2^53 + 4, with which it
    shares no cell. *)
Lemma double_intersects_without_shared_cell :
  Double.intersects (ASquare (new_Square (Pos (2 ^ 53 + 4) 0) 5))
                    (HorizontalRect (Pos (2 ^ 53 + 2) 0) 3) = true ∧
  Double.add (2 ^ 53 + 2) 1 = 2 ^ 53 + 4 ∧
  ¬ ∃ cell, occupies (ASquare (new_Square (Pos (2 ^ 53 + 4) 0) 5)) cell ∧
            occupies (HorizontalRect (Pos (2 ^ 53 + 2) 0) 3) cell.
Proof.
  split; [vm_compute; reflexivity|]. split; [vm_compute; reflexivity|].
  intros (cell & [Hx1 _] & [Hx2 _]).
  cbn [getTopLeft squares getDimensions Square_topLeft pos_x width] in Hx1, Hx2.
  lia.
Qed.

(** C6, amended. For every two pieces, of any shapes, whose top-left
    coordinates are safe integers (magnitude below 2^53; inside the grid
    or not), [p.intersects(q)], computed with the rounding arithmetic of
    the source, is true exactly when the occupied-cell sets of [p] and
    [q] share a cell. *)
Theorem double_intersects_iff_share_cell (p q : Piece) :
  safePiece p → safePiece q →
  (Double.intersects p q = true ↔ ∃ cell, occupies p cell ∧ occupies q cell).
Proof.
  intros Hp Hq. rewrite Double_intersects by done. apply intersects_spec.
Qed.

Lemma double_intersects_iff_share_cell_witness :
  safePiece (VerticalRect (Pos 0 (-1)) 0) ∧
  safePiece (SunSquare (Pos (-1) 0) 1) ∧
  (Double.intersects (VerticalRect (Pos 0 (-1)) 0) (SunSquare (Pos (-1) 0) 1)
     = true ↔
   ∃ cell, occupies (VerticalRect (Pos 0 (-1)) 0) cell ∧
           occupies (SunSquare (Pos (-1) 0) 1) cell).
Proof.
  assert (safePiece (VerticalRect (Pos 0 (-1)) 0)) as Hp
    by (split; vm_compute; reflexivity).
  assert (safePiece (SunSquare (Pos (-1) 0) 1)) as Hq
    by (split; vm_compute; reflexivity).
  split; [exact Hp|]. split; [exact Hq|].
  apply (double_intersects_iff_share_cell _ _ Hp Hq).
Defined.

(** ** The piece model on safe integers *)

Section safe_pieces.

Lemma squares_cover_exact p cell :
  occupies p cell ↔
  match p with
  | ASquare this => cell = Square_topLeft this
  | _ => cell ∈ Square_topLeft <$> squares p
  end.
Proof.
  destruct cell as [cx cy].
  destruct p as [[[x y] id]|[x y] id|[x y] id|[x y] id];
    unfold occupies; simpl;
    rewrite ?elem_of_cons, ?elem_of_nil; (split; [intros [Hx Hy]|intros Hin]).
  - f_equal; lia.
  - injection Hin as -> ->. lia.
  - assert (cx = x) as -> by lia.
    destruct (decide (cy = y)) as [->|]; [by left|right; left].
    f_equal; lia.
  - repeat destruct Hin as [Hin|Hin]; try done; injection Hin as -> ->; lia.
  - assert (cy = y) as -> by lia.
    destruct (decide (cx = x)) as [->|]; [by left|right; left].
    f_equal; lia.
  - repeat destruct Hin as [Hin|Hin]; try done; injection Hin as -> ->; lia.
  - destruct (decide (cx = x)) as [->|], (decide (cy = y)) as [->|].
    + by left.
    + right; right; left. f_equal; lia.
    + right; left. f_equal; lia.
    + right; right; right; left. f_equal; lia.
  - repeat destruct Hin as [Hin|Hin]; try done; injection Hin as -> ->; lia.
Qed.

Lemma moved_boxes p d :
  boxesOverlap p p ∧ (boxesOverlap (move p d) p ↔ longAlong p d).
Proof.
  pose proof (dimensions_range p) as Hdims.
  unfold boxesOverlap, longAlong.
  rewrite getTopLeft_move, getDimensions_move.
  split; [lia|]. destruct d; simpl; lia.
Qed.

Lemma safePiece_move p d :
  safePosition (movePosition (getTopLeft p) d) → safePiece (move p d).
Proof. unfold safePiece. by rewrite getTopLeft_move. Qed.

End safe_pieces.



(** X2. For a piece whose top-left coordinates are safe integers, the
    covered area computed by the source has exactly width x height
    strings: one per occupied cell, no two cells collapsing into one
    string.  (At x = 2^53 the two cells of a horizontal rectangle do
    collapse, see the witness.) *)
Theorem getCoveredArea_size (piece : Piece) :
  safePiece piece →
  size (Double.getCoveredArea piece)
  = Z.to_nat (width (getDimensions piece) * height (getDimensions piece)) ∧
  Double.getCoveredArea piece = list_to_set (JSON_stringify <$> cellsOf piece) ∧
  (∀ cell, cell ∈ cellsOf piece ↔ occupies piece cell).
Proof.
  intros Hsafe. rewrite Double_getCoveredArea by done. split_and!.
  - rewrite getCoveredArea_cellsOf, size_list_to_set.
    + by rewrite length_fmap, length_cellsOf.
    + apply NoDup_fmap_2; [apply _|apply NoDup_cellsOf].
  - apply getCoveredArea_cellsOf.
  - apply elem_of_cellsOf.
Qed.

Lemma getCoveredArea_size_witness :
  safePiece (HorizontalRect (Pos (2 ^ 53 - 1) 2) 3) ∧
  size (Double.getCoveredArea (HorizontalRect (Pos (2 ^ 53 - 1) 2) 3)) = 2%nat ∧
  size (Double.getCoveredArea (HorizontalRect (Pos (2 ^ 53) 2) 3)) = 1%nat.
Proof.
  assert (safePiece (HorizontalRect (Pos (2 ^ 53 - 1) 2) 3)) as Hsafe
    by (split; vm_compute; reflexivity).
  split; [exact Hsafe|]. split; [|vm_compute; reflexivity].
  apply (getCoveredArea_size _ Hsafe).
Defined.

(** X3. For pieces whose top-left coordinates are safe integers, the set
    intersection of [intersects] is the overlap test of the bounding
    boxes: it answers true exactly when each box starts before the other
    ends, on both axes. *)
Theorem intersects_iff_boxes_overlap (p q : Piece) :
  safePiece p → safePiece q →
  (Double.intersects p q = true ↔ boxesOverlap p q).
Proof.
  intros Hp Hq. rewrite Double_intersects by done. apply intersects_boxes.
Qed.

Lemma intersects_iff_boxes_overlap_witness :
  Double.intersects (SunSquare (Pos 1 0) 1) (VerticalRect (Pos 2 1) 0) = true ∧
  boxesOverlap (SunSquare (Pos 1 0) 1) (VerticalRect (Pos 2 1) 0).
Proof.
  assert (safePiece (SunSquare (Pos 1 0) 1)) as Hp
    by (split; vm_compute; reflexivity).
  assert (safePiece (VerticalRect (Pos 2 1) 0)) as Hq
    by (split; vm_compute; reflexivity).
  assert (Double.intersects (SunSquare (Pos 1 0) 1) (VerticalRect (Pos 2 1) 0)
          = true) as Hint by (vm_compute; reflexivity).
  split; [exact Hint|].
  exact (proj1 (intersects_iff_boxes_overlap _ _ Hp Hq) Hint).
Defined.

(** X4. For a piece at safe integer coordinates whose position one step
    further is safe too: the piece intersects itself, and the piece moved
    one step intersects its former position exactly when it is two cells
    long along the direction of the move; this is why the validator has
    to skip the entry of the moved piece. *)
Theorem moved_piece_meets_old_position (p : Piece) (d : MoveDirection) :
  safePiece p →
  safePosition (movePosition (getTopLeft p) d) →
  Double.intersects p p = true ∧
  (Double.intersects (Double.move p d) p = true ↔ longAlong p d).
Proof.
  intros Hp Hmoved%(safePiece_move p d).
  rewrite (Double_move p d Hmoved).
  rewrite (Double_intersects p p Hp Hp),
    (Double_intersects (move p d) p Hmoved Hp).
  rewrite !intersects_boxes. apply moved_boxes.
Qed.

Lemma moved_piece_meets_old_position_witness :
  Double.intersects (Double.move (SunSquare (Pos 1 0) 1) Down)
                    (SunSquare (Pos 1 0) 1) = true ∧
  (Double.intersects (Double.move (ASquare (new_Square (Pos 1 3) 5)) Down)
                     (ASquare (new_Square (Pos 1 3) 5)) = true ↔
   longAlong (ASquare (new_Square (Pos 1 3) 5)) Down).
Proof.
  split; [vm_compute; reflexivity|].
  apply (moved_piece_meets_old_position (ASquare (new_Square (Pos 1 3) 5)) Down);
    split; vm_compute; reflexivity.
Defined.

(** X5. For a piece whose top-left coordinates are safe integers, the
    dimensions it reports agree with the squares its constructor lays
    out: the occupied cells of a composite piece are exactly the corners
    of its squares (of a [Square], its own corner), and the inner squares
    all carry the null id -1. *)
Theorem squares_cover_occupied_cells (p : Piece) (cell : PiecePosition) :
  safePiece p →
  (occupies p cell ↔
   match p with
   | ASquare this => cell = Square_topLeft this
   | _ => cell ∈ Square_topLeft <$> Double.squares p
   end) ∧
  Forall (λ square, Square_id square = -1) (Double.squares p) ∧
  Z.of_nat (length (Double.squares p))
  = match p with
    | ASquare _ => 0
    | _ => width (getDimensions p) * height (getDimensions p)
    end.
Proof.
  intros Hsafe. rewrite Double_squares by done. split_and!.
  - apply squares_cover_exact.
  - destruct p; simpl; repeat constructor.
  - by destruct p.
Qed.

Lemma squares_cover_occupied_cells_witness :
  occupies (SunSquare (Pos 1 0) 1) (Pos 2 1) ∧
  (occupies (SunSquare (Pos 1 0) 1) (Pos 2 1) ↔
   Pos 2 1 ∈ Square_topLeft <$> Double.squares (SunSquare (Pos 1 0) 1)).
Proof.
  split; [unfold occupies; simpl; lia|].
  apply (squares_cover_occupied_cells (SunSquare (Pos 1 0) 1) (Pos 2 1)).
  split; vm_compute; reflexivity.
Defined.

(** C1, amended. [onMove] does not validate and reports no acceptance:
    on every board, for every identity present and every direction, it
    succeeds, raises the alert as [checkWinCondition] says, and returns
    the board in which the entry under the id the moved piece reports, if
    there is one, is the moved piece, every other entry being kept; when
    the piece reports the key it is stored under, that is the entry of
    the piece itself.  The validation guards the call instead: the
    controls of a piece show the arrow of a direction, whose click is the
    call of [onMove], exactly when [canMoveWithOthers] accepts that
    direction on the current board.  For an illegal move (no win
    exemption, and the moved piece overlaps a piece under another key, or
    the piece is inside the grid and the moved piece is not) the validator
    answers false, so there is no arrow and the board stays as it is. *)
Theorem illegal_moves_stopped_by_controls (pieces : gmap Z Piece) (id : Z)
    (piece : Piece) :
  pieces !! id = Some piece →
  (∀ direction, ∃ result,
     onMove pieces id direction = Some result ∧
     alerted result = checkWinCondition id piece direction ∧
     (∀ k, newPieces result !! k =
           if decide (k = getID piece)
           then (λ _, move piece direction) <$> pieces !! k
           else pieces !! k) ∧
     (getID piece = id → newPieces result = <[id := move piece direction]> pieces)) ∧
  ∃ arrows, controlsOf pieces id = Some arrows ∧
    (∀ direction outcome, (direction, outcome) ∈ arrows ↔
       canMoveWithOthers pieces id direction = Some true ∧
       outcome = onMove pieces id direction) ∧
    (∀ direction, illegalMove pieces id piece direction →
       canMoveWithOthers pieces id direction = Some false ∧
       ∀ outcome, (direction, outcome) ∉ arrows).
Proof.
  intros Hpiece. split.
  - intros direction. eexists. split; [by apply onMove_present|]. simpl.
    split_and!; [done| |].
    + intros k. apply updatePieces_lookup.
    + intros Hid. rewrite Hid. by erewrite updatePieces_insert.
  - destruct (controlsOf_present _ _ _ Hpiece) as (arrows & Hctl & Harrows).
    exists arrows. split_and!; [done..|].
    intros direction [Hwin Hillegal].
    assert (canMoveWithOthers pieces id direction = Some false) as Hfalse.
    { rewrite (canMoveWithOthers_present _ _ piece), Hwin by done.
      destruct (canMove piece direction) eqn:Hcan; [|done]. f_equal.
      apply not_true_iff_false. rewrite overlapsNoOther_spec. intros Hall.
      destruct Hillegal as [(k & other & cell & Hk & Hother & Hc1 & Hc2)
                           |[Hin (cell & Hc & Hout)]].
      - assert (intersects other (move piece direction) = false) as Hno.
        { apply (Hall k); [by apply elem_of_map_to_list|].
          by rewrite getID_move. }
        by apply (proj1 (intersects_false _ _) Hno cell).
      - apply Hout. by apply (canMove_true_in_grid piece direction Hin). }
    split; [done|]. intros outcome Hin.
    apply Harrows in Hin as [Htrue _]. congruence.
Qed.

Lemma illegal_moves_stopped_by_controls_witness :
  initializePieces !! 0 = Some (VerticalRect (Pos 0 0) 0) ∧
  illegalMove initializePieces 0 (VerticalRect (Pos 0 0) 0) Up ∧
  illegalMove initializePieces 0 (VerticalRect (Pos 0 0) 0) Right ∧
  ∃ arrows, controlsOf initializePieces 0 = Some arrows ∧
    (∀ outcome, (Up, outcome) ∉ arrows) ∧
    (∀ outcome, (Right, outcome) ∉ arrows).
Proof.
  assert (illegalMove initializePieces 0 (VerticalRect (Pos 0 0) 0) Up) as Hup.
  { split; [reflexivity|]. right. split.
    - apply within_rows_box. unfold GRID_WIDTH, GRID_HEIGHT; simpl. lia.
    - exists (Pos 0 (-1)). unfold occupies, inGrid, inRows; simpl. lia. }
  assert (illegalMove initializePieces 0 (VerticalRect (Pos 0 0) 0) Right)
    as Hright.
  { split; [reflexivity|]. left.
    exists 1, (SunSquare (Pos 1 0) SUN_ID), (Pos 1 0).
    split_and!; [done|vm_compute; reflexivity|..];
      unfold occupies; simpl; lia. }
  split; [vm_compute; reflexivity|]. split; [exact Hup|]. split; [exact Hright|].
  destruct (illegal_moves_stopped_by_controls initializePieces 0
              (VerticalRect (Pos 0 0) 0)) as (_ & arrows & Hctl & _ & Hnone);
    [vm_compute; reflexivity|].
  exists arrows. split; [exact Hctl|]. split.
  - apply (Hnone Up Hup).
  - apply (Hnone Right Hright).
Defined.
